(** * PDF_RAG: upload handler, status handler and processing worker

    A shallow embedding of [app/server.py], [app/queue/workers.py] and
    [db/collections/files.py].  The handlers are written once, as programs
    over the calls they make to their collaborators (record store, disk,
    queue, rasterizer, remote model); the same programs are then run to
    completion against a world (big step, with the trace of calls) and
    interleaved call by call (small step, for the invariants). *)

From Stdlib Require Import NArith Ascii String.
From Stdlib.Strings Require Import Byte.
From stdpp Require Import gmap strings list fin_maps pretty.

Local Open Scope string_scope.
Local Open Scope N_scope.
Local Open Scope list_scope.

(** ** BSON values and documents *)

(** The values the code stores in, and reads from, a Mongo document: an
    [ObjectId] (a 96-bit number), a [str], or [None]. *)
Inductive bson :=
| BOid (o : N)
| BStr (s : string)
| BNull.

#[global] Instance bson_eq_dec : EqDecision bson.
Proof. solve_decision. Defined.

(** A document, a filter, a [$set] body and a JSON response are all Python
    dicts with string keys. *)
Abbreviation Doc := (gmap string bson).

(** ** [bson.ObjectId]: the string form and its parser *)

Module Hex.

Definition digit (d : N) : ascii :=
  match d with
  | 0 => "0" | 1 => "1" | 2 => "2" | 3 => "3" | 4 => "4" | 5 => "5"
  | 6 => "6" | 7 => "7" | 8 => "8" | 9 => "9" | 10 => "a" | 11 => "b"
  | 12 => "c" | 13 => "d" | 14 => "e" | _ => "f"
  end%char.

(** Upper and lower case are both accepted, as by [bytes.fromhex]. *)
Definition value (c : ascii) : option N :=
  let n := N_of_ascii c in
  if (48 <=? n) && (n <=? 57) then Some (n - 48)
  else if (97 <=? n) && (n <=? 102) then Some (n - 87)
  else if (65 <=? n) && (n <=? 70) then Some (n - 55)
  else None.

(** The [k] low hexadecimal digits of [o], most significant first. *)
Fixpoint digits (k : nat) (o : N) : string :=
  match k with
  | O => ""
  | S k' => digits k' (o / 16) +:+ String (digit (o mod 16)) ""
  end.

Fixpoint parse (acc : N) (s : string) : option N :=
  match s with
  | "" => Some acc
  | String c s' =>
      match value c with
      | Some d => parse (acc * 16 + d) s'
      | None => None
      end
  end.

End Hex.

(** Faults the handlers can end in. *)
Inductive exn :=
| InvalidId (s : string)             (* bson.errors.InvalidId *)
| TypeError                          (* subscripting None *)
| KeyError (k : string)              (* dict[k] with k absent *)
| IndexError                         (* list[i] out of range *)
| FileNotFoundError (path : string)  (* open() of a missing file *)
| ExternalError (msg : string).      (* a collaborator's own fault *)

Inductive outcome (A : Type) :=
| Ok (a : A)
| Raise (e : exn).
Arguments Ok {A} a.
Arguments Raise {A} e.

(** [str(oid)]: the number in lower-case hexadecimal, padded to 24 digits.
    An [ObjectId] is a 96-bit number, for which this is exactly 24 digits;
    a larger number, which the driver never makes, would take more. *)
Definition str_oid (o : N) : string :=
  Hex.digits (Nat.max 24 (N.to_nat ((N.size o + 3) / 4))) o.

(** [ObjectId(s)] for a [str] argument: 24 hexadecimal digits, or
    [InvalidId]. *)
Definition ObjectId (s : string) : outcome N :=
  if Nat.eqb (String.length s) 24 then
    match Hex.parse 0 s with
    | Some o => Ok o
    | None => Raise (InvalidId s)
    end
  else Raise (InvalidId s).

(** Python's [str(v)] on the values met here. *)
Definition str (v : bson) : string :=
  match v with
  | BOid o => str_oid o
  | BStr s => s
  | BNull => "None"
  end.

(** ** Library functions the worker calls *)

Module Base64.

Definition alphabet : string :=
  "ABCDEFGHIJKLMNOPQRSTUVWXYZabcdefghijklmnopqrstuvwxyz0123456789+/".

Definition char (n : N) : ascii :=
  default "="%char (String.get (N.to_nat (N.land n 63)) alphabet).

(** [base64.b64encode(bs).decode("utf-8")] *)
Fixpoint b64encode (bs : list byte) : string :=
  match bs with
  | [] => ""
  | [a] =>
      let n := N.shiftl (Byte.to_N a) 16 in
      String (char (N.shiftr n 18)) (String (char (N.shiftr n 12)) "==")
  | [a; b] =>
      let n := N.lor (N.shiftl (Byte.to_N a) 16) (N.shiftl (Byte.to_N b) 8) in
      String (char (N.shiftr n 18)) (String (char (N.shiftr n 12))
        (String (char (N.shiftr n 6)) "="))
  | a :: b :: c :: rest =>
      let n := N.lor (N.lor (N.shiftl (Byte.to_N a) 16)
                            (N.shiftl (Byte.to_N b) 8)) (Byte.to_N c) in
      String (char (N.shiftr n 18)) (String (char (N.shiftr n 12))
        (String (char (N.shiftr n 6)) (String (char n) (b64encode rest))))
  end.

End Base64.

Module Posixpath.

Fixpoint lstrip (p : ascii → bool) (l : list ascii) : list ascii :=
  match l with
  | [] => []
  | c :: l' => if p c then lstrip p l' else l
  end.

Definition is_sep (c : ascii) : bool := Ascii.eqb c "/".

(** [os.path.dirname]: everything up to the last separator, with trailing
    separators removed unless the head consists of separators only. *)
Definition dirname (p : string) : string :=
  let head := lstrip (λ c, negb (is_sep c)) (reverse (list_ascii_of_string p)) in
  let head := if forallb is_sep head then head else lstrip is_sep head in
  string_of_list_ascii (reverse head).

End Posixpath.

(** ** The calls of the handlers and the worker *)

(** A page as the rasterizer returns it (a PIL image). *)
Definition Page := list byte.

(** [fastapi.UploadFile]: the client's file name and the bytes that
    [file.read()] returns. *)
Record UploadFile := { filename : string; read : list byte }.

(** The body of [client.chat.completions.create(model=..., messages=...)]. *)
Inductive ContentPart :=
| text_part (text : string)          (* {"type": "text", "text": ...} *)
| image_url_part (url : string).     (* {"type": "image_url", "image_url": {"url": ...}} *)

Record Message := { role : string; content : list ContentPart }.

Record ChatRequest := { model : string; messages : list Message }.

(** One constructor per call on a collaborator, under the name the source
    calls it by. *)
Inductive op :=
| insert_one (document : Doc)                 (* files_collection.insert_one *)
| update_one (filter : Doc) (set : Doc)       (* files_collection.update_one(filter, {"$set": set}) *)
| find_one (filter : Doc)                     (* files_collection.find_one *)
| save_to_disk (file : list byte) (path : string)
| enqueue (id file_path : string)             (* queue.enqueue(process_file, id, file_path) *)
| convert_from_path (file_path : string)      (* pdf2image *)
| makedirs (dir : string)                     (* os.makedirs(dir, exist_ok=True) *)
| page_save (page : Page) (path : string)     (* page.save(path, 'JPEG') *)
| open_read (path : string)                   (* open(path, "rb").read() *)
| chat_completions_create (request : ChatRequest).

(** What each call returns to the code when it returns. *)
Definition answer (o : op) : Type :=
  match o with
  | insert_one _ => bson                      (* .inserted_id *)
  | update_one _ _ => unit
  | find_one _ => option Doc
  | save_to_disk _ _ => unit
  | enqueue _ _ => unit
  | convert_from_path _ => list Page
  | makedirs _ => unit
  | page_save _ _ => unit
  | open_read _ => list byte
  | chat_completions_create _ => string       (* .choices[0].message.content *)
  end.

(** A program: returns, raises, or makes a call and goes on with its
    answer. *)
Inductive Prog (A : Type) : Type :=
| Ret (a : A)
| Throw (e : exn)
| Call (o : op) (k : answer o → Prog A).
Arguments Ret {A} a.
Arguments Throw {A} e.
Arguments Call {A} o k.

Fixpoint bind {A B : Type} (m : Prog A) (f : A → Prog B) : Prog B :=
  match m with
  | Ret a => f a
  | Throw e => Throw e
  | Call o k => Call o (λ x, bind (k x) f)
  end.

#[global] Instance Prog_ret : MRet Prog := @Ret.
#[global] Instance Prog_bind : MBind Prog := λ A B f m, bind m f.

Definition call (o : op) : Prog (answer o) := Call o Ret.

Definition lift {A : Type} (r : outcome A) : Prog A :=
  match r with
  | Ok a => Ret a
  | Raise e => Throw e
  end.

(** [d[k]] on the result of [find_one], which is a dict or [None]. *)
Definition subscript (d : option Doc) (k : string) : Prog bson :=
  match d with
  | None => Throw TypeError
  | Some d =>
      match d !! k with
      | Some v => Ret v
      | None => Throw (KeyError k)
      end
  end.

(** [l[i]] on a list. *)
Definition index {A : Type} (l : list A) (i : nat) : Prog A :=
  match l !! i with
  | Some x => Ret x
  | None => Throw IndexError
  end.

(** ** [app/server.py] *)

Definition get_file_by_id (id : string) : Prog Doc :=
  oid ← lift (ObjectId id);
  db_file ← call (find_one {["_id" := BOid oid]});
  _id ← subscript db_file "_id";
  name ← subscript db_file "name";
  status ← subscript db_file "status";
  let result := default BNull (db_file ≫= (.!! "result")) in
  mret ({["_id" := BStr (str _id); "name" := name; "status" := status;
          "result" := result]} : Doc).

Definition upload_file (file : UploadFile) : Prog Doc :=
  inserted_id ← call (insert_one {["name" := BStr (filename file);
                                   "status" := BStr "saving"]});
  let file_path := "/mnt/uploads/" +:+ str inserted_id +:+ "/" +:+ filename file in
  _ ← call (save_to_disk (read file) file_path);
  _ ← call (enqueue (str inserted_id) file_path);
  _ ← call (update_one {["_id" := BStr (str inserted_id)]}
                       {["status" := BStr "queued"]});
  mret ({["file_id" := BStr (str inserted_id)]} : Doc).

(** ** [app/queue/workers.py] *)

Definition encode_image (image_path : string) : Prog string :=
  bytes ← call (open_read image_path);
  mret (Base64.b64encode bytes).

Definition image_save_path (id : string) (i : nat) : string :=
  "/mnt/uploads/images/" +:+ id +:+ "/image-" +:+ pretty i +:+ ".jpg".

(** The [for i, page in enumerate(pages)] loop, from index [i] on; the
    value is what the loop appends to [images]. *)
Fixpoint save_pages (id : string) (i : nat) (pages : list Page)
  : Prog (list string) :=
  match pages with
  | [] => mret []
  | page :: pages' =>
      _ ← call (makedirs (Posixpath.dirname (image_save_path id i)));
      _ ← call (page_save page (image_save_path id i));
      images ← save_pages id (S i) pages';
      mret (image_save_path id i :: images)
  end.

(** [[encode_image(img) for img in images]] *)
Fixpoint encode_images (images : list string) : Prog (list string) :=
  match images with
  | [] => mret []
  | img :: images' =>
      b ← encode_image img;
      bs ← encode_images images';
      mret (b :: bs)
  end.

Definition set_status (id : string) (set : Doc) : Prog unit :=
  oid ← lift (ObjectId id);
  call (update_one {["_id" := BOid oid]} set).

Definition roast_request (image : string) : ChatRequest :=
  {| model := "gemini-2.0-flash";
     messages :=
       [ {| role := "user";
            content :=
              [ text_part "Based on the resume below, Roast this resume.";
                image_url_part ("data:image/jpeg;base64," +:+ image) ] |} ] |}.

Definition process_file (id file_path : string) : Prog unit :=
  _ ← set_status id {["status" := BStr "processing"]};
  _ ← set_status id {["status" := BStr "Converting to images"]};
  pages ← call (convert_from_path file_path);
  images ← save_pages id 0 pages;
  _ ← set_status id {["status" := BStr "Converting to images success"]};
  image_base64 ← encode_images images;
  image0 ← index image_base64 0;
  result ← call (chat_completions_create (roast_request image0));
  set_status id {["status" := BStr "Processed"; "result" := BStr result]}.

(** ** The world the calls act on *)

(** The behaviour of the collaborators that is not decided by the code:
    whether a write to storage fails, what the rasterizer makes of a file,
    what JPEG bytes a page is saved as, what the remote model answers. *)
Record Env := {
  storage_fault : string → option exn;
  pdf2image : list byte → outcome (list Page);
  makedirs_fault : string → option exn;
  jpeg : Page → outcome (list byte);
  gemini : ChatRequest → outcome string;
}.

(** Modelled from the spec: the database handle of [app/db/db.py] and the
    queue object of [app/queue/q.py] are not among the sources.  The
    [files] collection is the list of its documents, in insertion order
    ("a persistent record store holds one document per uploaded file"),
    and the queue the list of the enqueued [(id, file_path)] tasks, oldest
    first ("a queue decouples upload from processing").  The disk maps a
    path to the bytes of the file there. *)
Record World := {
  files_collection : list Doc;
  disk : gmap string (list byte);
  queue : list (string * string);
}.

Definition with_files (c : list Doc) (w : World) : World :=
  {| files_collection := c; disk := disk w; queue := queue w |}.

Definition with_disk (d : gmap string (list byte)) (w : World) : World :=
  {| files_collection := files_collection w; disk := d; queue := queue w |}.

Definition with_queue (q : list (string * string)) (w : World) : World :=
  {| files_collection := files_collection w; disk := disk w; queue := q |}.

Module Collection.

(** A document matches a filter when it has every field of the filter with
    an equal value; an [ObjectId] and a [str] are never equal. *)
Definition matches (filter d : Doc) : bool :=
  bool_decide (map_Forall (λ k v, d !! k = Some v) filter).

(** A fresh [ObjectId]: above every one in the collection. *)
Definition next_oid (c : list Doc) : N :=
  foldr (λ d n, match d !! "_id" with
                | Some (BOid o) => N.max (N.succ o) n
                | _ => n
                end) 0 c.

(** [insert_one]: the driver adds a fresh ["_id"] when the document has
    none; the answer is the [inserted_id]. *)
Definition insert (c : list Doc) (document : Doc) : bson * list Doc :=
  match document !! "_id" with
  | Some v => (v, (c ++ [document])%list)
  | None =>
      let o := BOid (next_oid c) in (o, (c ++ [<["_id" := o]> document])%list)
  end.

(** [find_one]: the first matching document, or [None]. *)
Fixpoint find (c : list Doc) (filter : Doc) : option Doc :=
  match c with
  | [] => None
  | d :: c' => if matches filter d then Some d else find c' filter
  end.

(** [update_one] with [{"$set": set}]: the fields of [set] are written
    into the first matching document; nothing happens when none matches. *)
Fixpoint update (c : list Doc) (filter set : Doc) : list Doc :=
  match c with
  | [] => []
  | d :: c' =>
      if matches filter d then (set ∪ d) :: c'
      else d :: update c' filter set
  end.

End Collection.

Definition fault_or_unit (f : option exn) : outcome unit :=
  match f with
  | Some e => Raise e
  | None => Ok tt
  end.

(** Modelled from the spec: [save_to_disk] of [app/utils/file.py] is not
    among the sources; it "writes the raw bytes to durable storage at a
    path".  A write that fails leaves the disk as it was. *)
Definition save_to_disk_at (env : Env) (file : list byte) (path : string)
    (w : World) : outcome unit * World :=
  match storage_fault env path with
  | Some e => (Raise e, w)
  | None => (Ok tt, with_disk (<[path := file]> (disk w)) w)
  end.

(** One call against the world. *)
Definition exec (env : Env) (o : op) (w : World) : outcome (answer o) * World :=
  match o as o' return outcome (answer o') * World with
  | insert_one document =>
      let '(i, c) := Collection.insert (files_collection w) document in
      (Ok i, with_files c w)
  | update_one filter set =>
      (Ok tt, with_files (Collection.update (files_collection w) filter set) w)
  | find_one filter => (Ok (Collection.find (files_collection w) filter), w)
  | save_to_disk file path => save_to_disk_at env file path w
  | enqueue id file_path => (Ok tt, with_queue (queue w ++ [(id, file_path)])%list w)
  | convert_from_path file_path =>
      match disk w !! file_path with
      | Some bytes => (pdf2image env bytes, w)
      | None => (Raise (FileNotFoundError file_path), w)
      end
  | makedirs dir => (fault_or_unit (makedirs_fault env dir), w)
  | page_save page path =>
      match jpeg env page with
      | Ok bytes => (Ok tt, with_disk (<[path := bytes]> (disk w)) w)
      | Raise e => (Raise e, w)
      end
  | open_read path =>
      match disk w !! path with
      | Some bytes => (Ok bytes, w)
      | None => (Raise (FileNotFoundError path), w)
      end
  | chat_completions_create request => (gemini env request, w)
  end.

(** The result of running a program: how it ended, the world it left, and
    the calls it made, in order (a call that raised is the last one). *)
Record Run (A : Type) := {
  result : outcome A;
  final : World;
  trace : list op;
}.
Arguments result {A} r.
Arguments final {A} r.
Arguments trace {A} r.

Fixpoint run {A : Type} (env : Env) (p : Prog A) (w : World) : Run A :=
  match p with
  | Ret a => {| result := Ok a; final := w; trace := [] |}
  | Throw e => {| result := Raise e; final := w; trace := [] |}
  | Call o k =>
      match exec env o w with
      | (Ok x, w') =>
          let r := run env (k x) w' in
          {| result := result r; final := final r; trace := o :: trace r |}
      | (Raise e, w') => {| result := Raise e; final := w'; trace := [o] |}
      end
  end.


(** ** A concrete job, for evaluating the handlers *)

Definition empty_world : World :=
  {| files_collection := []; disk := ∅; queue := [] |}.

(** Collaborators that never fail: every document has three pages and the
    remote model answers "roasted". *)
Definition quiet_env : Env :=
  {| storage_fault := λ _, None;
     pdf2image := λ _, Ok [["p"; "1"]; ["p"; "2"]; ["p"; "3"]]%byte;
     makedirs_fault := λ _, None;
     jpeg := λ page, Ok page;
     gemini := λ _, Ok "roasted" |}.

Definition cv : UploadFile :=
  {| filename := "cv.pdf"; read := ["%"; "P"; "D"; "F"]%byte |}.

(** ** Reading a trace *)

(** The [(filter, set)] pairs of the [update_one] calls, in order. *)
Definition updates (tr : list op) : list (Doc * Doc) :=
  omap (λ c, match c with
             | update_one filter set => Some (filter, set)
             | _ => None
             end) tr.

(** The values written to ["status"], in order. *)
Definition status_writes (tr : list op) : list bson :=
  omap (λ u, u.2 !! "status") (updates tr).

(** The updates that write a ["result"]. *)
Definition result_writes (tr : list op) : list (Doc * Doc) :=
  filter (λ u, is_Some (u.2 !! "result")) (updates tr).

(** The requests sent to the remote model, in order. *)
Definition chat_requests (tr : list op) : list ChatRequest :=
  omap (λ c, match c with
             | chat_completions_create request => Some request
             | _ => None
             end) tr.

(** The images a request carries. *)
Definition images_of (request : ChatRequest) : list string :=
  omap (λ part, match part with
                | image_url_part url => Some url
                | text_part _ => None
                end) (messages request ≫= content).

(** Calls that write to the collection or the queue. *)
Definition touches_store (c : op) : bool :=
  match c with
  | insert_one _ | update_one _ _ | enqueue _ _ => true
  | _ => false
  end.

Definition is_chat (c : op) : bool :=
  match c with
  | chat_completions_create _ => true
  | _ => false
  end.

(** Calls on the file system and the rasterizer only. *)
Definition passive (c : op) : bool := negb (touches_store c) && negb (is_chat c).

(** Every call a program can ever make satisfies [P]. *)
Fixpoint only {A : Type} (P : op → bool) (p : Prog A) : Prop :=
  match p with
  | Ret _ | Throw _ => True
  | Call c k => P c = true ∧ ∀ x, only P (k x)
  end.


(** The filter [{"_id": ObjectId(id)}]. *)
Definition by_id (o : N) : Doc := {["_id" := BOid o]}.

(** Calls that leave the collection and the queue alone. *)
Definition harmless (c : op) : bool := negb (touches_store c).

(** ** Vocabulary of the statements about the handlers *)



(** Where the upload handler stores the file of job [id]. *)
Definition upload_path (id : string) (file : UploadFile) : string :=
  "/mnt/uploads/" +:+ id +:+ "/" +:+ filename file.

(** The calls of an upload as the specification lists them: create the
    record, write the bytes, enqueue the task (and then return). *)
Definition upload_steps_listed (id : string) (file : UploadFile) : list op :=
  [insert_one {["name" := BStr (filename file); "status" := BStr "saving"]};
   save_to_disk (read file) (upload_path id file);
   enqueue id (upload_path id file)].

(** A record as the upload handler creates it is identified by an
    [ObjectId]. *)
Definition has_oid (d : Doc) : Prop := ∃ o, d !! "_id" = Some (BOid o).

(** A remote model that is down, and a rasterizer that finds no page. *)
Definition remote_down_env : Env :=
  {| storage_fault := storage_fault quiet_env;
     pdf2image := pdf2image quiet_env;
     makedirs_fault := makedirs_fault quiet_env;
     jpeg := jpeg quiet_env;
     gemini := λ _, Raise (ExternalError "remote model unavailable") |}.

Definition no_page_env : Env :=
  {| storage_fault := storage_fault quiet_env;
     pdf2image := λ _, Ok [];
     makedirs_fault := makedirs_fault quiet_env;
     jpeg := jpeg quiet_env;
     gemini := gemini quiet_env |}.

(** The world after one upload of [cv] into the empty world. *)
Definition uploaded_world : World :=
  final (run quiet_env (upload_file cv) empty_world).

(** The job that upload created, as the queue holds it. *)
Definition cv_id : string := "000000000000000000000000".
Definition cv_path : string := "/mnt/uploads/000000000000000000000000/cv.pdf".
Definition cv_record : Doc :=
  {["_id" := BOid 0; "name" := BStr "cv.pdf"; "status" := BStr "saving"]}.

(** ** The system: requests and tasks interleaved call by call *)

(** A request being handled by [upload_file], or a task being run by
    [process_file]; the program is what is left of it to do. *)
Inductive thread :=
| Upload (p : Prog Doc)
| Worker (p : Prog unit).

Record System := {
  world : World;
  threads : list thread;
}.

(** The next call of a program, made against the world. *)
Definition advance {A : Type} (env : Env) (p : Prog A) (w : World)
  : option (Prog A * World) :=
  match p with
  | Call c k =>
      match exec env c w with
      | (Ok x, w') => Some (k x, w')
      | (Raise e, w') => Some (Throw e, w')
      end
  | _ => None
  end.

Definition thread_call (env : Env) (t : thread) (w : World)
  : option (thread * World) :=
  match t with
  | Upload p => prod_map Upload id <$> advance env p w
  | Worker p => prod_map Worker id <$> advance env p w
  end.

(** What can happen next: a client posts a file; a worker takes the task
    at the head of the queue; one of the threads makes its next call, which
    the collaborators answer as [env] says. *)
Inductive action :=
| Request (file : UploadFile)
| Dequeue
| Next (env : Env) (i : nat).

Definition act (a : action) (s : System) : option System :=
  match a with
  | Request file =>
      Some {| world := world s;
              threads := threads s ++ [Upload (upload_file file)] |}
  | Dequeue =>
      match queue (world s) with
      | (id, file_path) :: q =>
          Some {| world := with_queue q (world s);
                  threads := threads s ++ [Worker (process_file id file_path)] |}
      | [] => None
      end
  | Next env i =>
      t ← threads s !! i;
      '(t', w') ← thread_call env t (world s);
      Some {| world := w'; threads := <[i := t']> (threads s) |}
  end.

Definition step (s s' : System) : Prop := ∃ a, act a s = Some s'.

Definition initial : System := {| world := empty_world; threads := [] |}.

Definition reachable (s : System) : Prop := rtc step initial s.

Fixpoint play (acts : list action) (s : System) : option System :=
  match acts with
  | [] => Some s
  | a :: acts' => s' ← act a s; play acts' s'
  end.

(** ** The discipline the threads follow *)

(** [safe own p]: what a thread that holds the job [own] (or none) may
    still do.  It inserts only when it holds no job, and then holds the
    new one; it enqueues only the job it holds, and passes it on; it
    updates either under a [str] filter, or the job it holds: the status
    alone, or the status "Processed" with a result, after which it holds
    the job no more. *)
Fixpoint safe {A : Type} (own : option N) (p : Prog A) : Prop :=
  match p with
  | Ret _ | Throw _ => True
  | Call c k =>
      match c as c' return (answer c' → Prog A) → Prop with
      | insert_one document => λ k,
          own = None ∧ document !! "_id" = None ∧ document !! "result" = None
          ∧ ∀ o, safe (Some o) (k (BOid o))
      | enqueue id _ => λ k,
          ∃ o, own = Some o ∧ id = str_oid o ∧ ∀ x, safe None (k x)
      | update_one filter set => λ k,
          (∃ s, filter = {["_id" := BStr s]} ∧ ∀ x, safe own (k x))
          ∨ (∃ o v, own = Some o ∧ filter = by_id o
                    ∧ set = {["status" := v]} ∧ ∀ x, safe own (k x))
          ∨ (∃ o v, own = Some o ∧ filter = by_id o
                    ∧ set = {["status" := BStr "Processed"; "result" := v]}
                    ∧ ∀ x, safe None (k x))
      | _ => λ k, ∀ x, safe own (k x)
      end k
  end.

Definition thread_safe (own : option N) (t : thread) : Prop :=
  match t with
  | Upload p => safe own p
  | Worker p => safe own p
  end.

(** What one call of a disciplined thread does to the collection and the
    queue, with the job the thread holds before and after it. *)
Inductive effect (w w' : World) : option N → option N → Prop :=
| eff_quiet own :
    files_collection w' = files_collection w →
    queue w' = queue w →
    effect w w' own own
| eff_str own s set :
    files_collection w'
    = Collection.update (files_collection w) {["_id" := BStr s]} set →
    queue w' = queue w →
    effect w w' own own
| eff_insert document :
    document !! "_id" = None →
    document !! "result" = None →
    files_collection w'
    = files_collection w
      ++ [<["_id" := BOid (Collection.next_oid (files_collection w))]> document] →
    queue w' = queue w →
    effect w w' None (Some (Collection.next_oid (files_collection w)))
| eff_enqueue o file_path :
    files_collection w' = files_collection w →
    queue w' = queue w ++ [(str_oid o, file_path)] →
    effect w w' (Some o) None
| eff_mark o v :
    files_collection w'
    = Collection.update (files_collection w) (by_id o) {["status" := v]} →
    queue w' = queue w →
    effect w w' (Some o) (Some o)
| eff_final o v :
    files_collection w'
    = Collection.update (files_collection w) (by_id o)
        {["status" := BStr "Processed"; "result" := v]} →
    queue w' = queue w →
    effect w w' (Some o) None.

(** The job [o] is held by a thread or waits in the queue. *)
Definition held (owns : list (option N)) (tasks : list (N * string)) (o : N)
  : Prop :=
  (∃ i, owns !! i = Some (Some o)) ∨ o ∈ tasks.*1.

(** The invariant of the system.  [owns] gives the job each thread holds
    and [tasks] the jobs in the queue; a job is held at most once, and
    while it is held its record has no result. *)
Record Inv (s : System) (owns : list (option N)) (tasks : list (N * string))
  : Prop := {
  inv_threads : Forall2 thread_safe owns (threads s);
  inv_queue : queue (world s) = prod_map str_oid id <$> tasks;
  inv_oids : Forall has_oid (files_collection (world s));
  inv_result : ∀ d,
    d ∈ files_collection (world s) →
    is_Some (d !! "result") → d !! "status" = Some (BStr "Processed");
  inv_one_thread : ∀ i j o,
    owns !! i = Some (Some o) → owns !! j = Some (Some o) → i = j;
  inv_one_task : NoDup tasks.*1;
  inv_thread_or_task : ∀ i o, owns !! i = Some (Some o) → o ∉ tasks.*1;
  inv_held : ∀ o,
    held owns tasks o →
    o < Collection.next_oid (files_collection (world s))
    ∧ ∀ d, d ∈ files_collection (world s) →
           d !! "_id" = Some (BOid o) → d !! "result" = None;
}.

Definition invariant (s : System) : Prop := ∃ owns tasks, Inv s owns tasks.

(** One whole life of a job: the upload of [cv] (thread 0, four calls),
    then the dequeue and the worker on its three pages (thread 1, fifteen
    calls). *)
Definition cv_schedule : list action :=
  Request cv :: replicate 4 (Next quiet_env 0)
  ++ Dequeue :: replicate 15 (Next quiet_env 1).

Definition cv_processed_system : System :=
  default initial (play cv_schedule initial).

Definition cv_processed : Doc :=
  <["status" := BStr "Processed"]> (<["result" := BStr "roasted"]> cv_record).

(** ** The health check of [app/server.py] *)

Definition health : Prog Doc :=
  mret ({["status" := BStr "Server is up and running"]} : Doc).

(** ** What the calls of a program are, and what they change *)

(** Every call a program can ever make satisfies [P]. *)
Fixpoint always {A : Type} (P : op → Prop) (p : Prog A) : Prop :=
  match p with
  | Ret _ | Throw _ => True
  | Call c k => P c ∧ ∀ x, always P (k x)
  end.

(** The call writes the file at [path]. *)
Definition writes (path : string) (c : op) : Prop :=
  match c with
  | save_to_disk _ path' | page_save _ path' => path' = path
  | _ => False
  end.

(** What a call does to the collection. *)
Definition apply_call (c : list Doc) (o : op) : list Doc :=
  match o with
  | insert_one document => (Collection.insert c document).2
  | update_one filter set => Collection.update c filter set
  | _ => c
  end.

(** The tasks a trace enqueues, in order. *)
Definition enqueued (tr : list op) : list (string * string) :=
  omap (λ c, match c with
             | enqueue id file_path => Some (id, file_path)
             | _ => None
             end) tr.

(** The calls of the worker on job [id], whose [ObjectId] is [o]: updates
    of that job, with no ["_id"] in what they set; page images saved at
    the job's image paths; the rasterizer, directories, reads and the
    remote model.  It never inserts, enqueues or writes elsewhere. *)
Definition worker_call (id : string) (o : N) (c : op) : Prop :=
  match c with
  | update_one filter set => filter = by_id o ∧ set !! "_id" = None
  | page_save _ path => ∃ k, path = image_save_path id k
  | insert_one _ | enqueue _ _ | save_to_disk _ _ | find_one _ => False
  | convert_from_path _ | makedirs _ | open_read _
  | chat_completions_create _ => True
  end.

(** The names a status is given anywhere in the source. *)
Definition status_names : list bson :=
  [BStr "saving"; BStr "queued"; BStr "processing";
   BStr "Converting to images"; BStr "Converting to images success";
   BStr "Processed"].

(** The calls of any thread, whatever its identifier: a record is inserted
    without ["_id"], with a name and the status "saving"; an update sets
    no ["_id"], and a status only to one of the names. *)
Definition tidy_call (c : op) : Prop :=
  match c with
  | insert_one document =>
      document !! "_id" = None
      ∧ is_Some (document !! "name")
      ∧ document !! "status" = Some (BStr "saving")
  | update_one _ set =>
      set !! "_id" = None
      ∧ ∀ v, set !! "status" = Some v → v ∈ status_names
  | _ => True
  end.

Definition thread_tidy (t : thread) : Prop :=
  match t with
  | Upload p => always tidy_call p
  | Worker p => always tidy_call p
  end.

(** A record as the system keeps it: identified by an [ObjectId], with a
    name, and a status that is one of the names. *)
Definition file_job (d : Doc) : Prop :=
  has_oid d ∧ is_Some (d !! "name")
  ∧ ∃ v, d !! "status" = Some v ∧ v ∈ status_names.

(** The identifiers of the records, in order. *)
Definition ids (c : list Doc) : list (option bson) := (.!! "_id") <$> c.

Definition tidy (s : System) : Prop :=
  Forall thread_tidy (threads s)
  ∧ Forall file_job (files_collection (world s))
  ∧ NoDup (ids (files_collection (world s))).

(** A storage that refuses every write. *)
Definition disk_full_env : Env :=
  {| storage_fault := λ _, Some (ExternalError "disk full");
     pdf2image := pdf2image quiet_env;
     makedirs_fault := makedirs_fault quiet_env;
     jpeg := jpeg quiet_env;
     gemini := gemini quiet_env |}.

(** A rasterizer that rejects every file. *)
Definition not_pdf_env : Env :=
  {| storage_fault := storage_fault quiet_env;
     pdf2image := λ _, Raise (ExternalError "not a PDF");
     makedirs_fault := makedirs_fault quiet_env;
     jpeg := jpeg quiet_env;
     gemini := gemini quiet_env |}.

(** A call to the remote model carries the request of the source: the
    fixed prompt and one image. *)
Definition roast_call (c : op) : Prop :=
  match c with
  | chat_completions_create request => ∃ image, request = roast_request image
  | _ => True
  end.

(** * Properties *)

(** ** The string form of an [ObjectId] parses back *)

Section HexFacts.

Lemma length_app (s1 s2 : string) :
  String.length (s1 +:+ s2) = (String.length s1 + String.length s2)%nat.
Proof. induction s1 as [|c s1 IH]; simpl; [done | by rewrite IH]. Qed.

Lemma value_digit (d : N) : d < 16 → Hex.value (Hex.digit d) = Some d.
Proof.
  intros Hd.
  destruct d as [|p]; [done|].
  do 4 (destruct p as [p|p|]; try done); lia.
Qed.

Lemma parse_app (s1 s2 : string) (acc : N) :
  Hex.parse acc (s1 +:+ s2) = Hex.parse acc s1 ≫= λ a, Hex.parse a s2.
Proof.
  revert acc. induction s1 as [|c s1 IH]; intros acc; simpl; [done|].
  destruct (Hex.value c); [apply IH | done].
Qed.

Lemma parse_digits (k : nat) (o acc : N) :
  Hex.parse acc (Hex.digits k o) = Some (acc * 16 ^ N.of_nat k + o mod 16 ^ N.of_nat k).
Proof.
  revert o. induction k as [|k IH]; intros o.
  - simpl. rewrite N.mod_1_r. f_equal. lia.
  - cbn [Hex.digits]. rewrite parse_app, IH. cbn [mbind option_bind Hex.parse].
    rewrite value_digit by (apply N.mod_lt; lia).
    f_equal. rewrite Nat2N.inj_succ, N.pow_succ_r'.
    rewrite (N.Div0.mod_mul_r o 16). lia.
Qed.

Lemma length_digits (k : nat) (o : N) : String.length (Hex.digits k o) = k.
Proof.
  revert o. induction k as [|k IH]; intros o; [done|].
  cbn [Hex.digits]. rewrite length_app, IH. simpl. lia.
Qed.

Lemma size_96 (o : N) : o < 2 ^ 96 ↔ (N.size o + 3) / 4 ≤ 24.
Proof.
  split.
  - intros Ho. assert (N.size o < 97) as Hs.
    { apply (N.pow_lt_mono_r_iff 2); [lia|].
      pose proof (N.size_le o). unfold N.succ_double in *.
      destruct o; lia. }
    assert ((N.size o + 3) / 4 < 25); [|lia].
    apply N.Div0.div_lt_upper_bound. lia.
  - intros Hs. assert (N.size o ≤ 96) as Hle.
    { destruct (N.le_gt_cases (N.size o) 96) as [|Hgt]; [done|].
      assert (25 ≤ (N.size o + 3) / 4); [|lia].
      apply N.div_le_lower_bound; lia. }
    pose proof (N.size_gt o).
    pose proof (N.pow_le_mono_r 2 (N.size o) 96). lia.
Qed.

Lemma str_oid_96 (o : N) : o < 2 ^ 96 → str_oid o = Hex.digits 24 o.
Proof. intros Ho%size_96. unfold str_oid. f_equal. lia. Qed.

Lemma ObjectId_str_oid (o : N) : o < 2 ^ 96 → ObjectId (str_oid o) = Ok o.
Proof.
  intros Ho. rewrite str_oid_96 by done. unfold ObjectId.
  rewrite length_digits, parse_digits. simpl Nat.eqb. cbv iota.
  rewrite N.mod_small by (change (16 ^ N.of_nat 24) with (2 ^ 96); lia).
  f_equal; lia.
Qed.

(** The parser accepts the string form of no other identifier. *)
Lemma ObjectId_str_oid_inv (o o' : N) : ObjectId (str_oid o) = Ok o' → o' = o.
Proof.
  unfold ObjectId. destruct (Nat.eqb _ 24) eqn:Hlen; [|done].
  assert (o < 2 ^ 96) as Ho.
  { apply Nat.eqb_eq in Hlen. unfold str_oid in Hlen.
    rewrite length_digits in Hlen. apply size_96. lia. }
  pose proof (ObjectId_str_oid o Ho) as H. unfold ObjectId in H.
  rewrite Hlen in H. destruct (Hex.parse 0 (str_oid o)); congruence.
Qed.

End HexFacts.

(** ** Sanity checks of the library models *)

Example str_oid_1 : str_oid 1 = "000000000000000000000001".
Proof. reflexivity. Qed.

Example str_oid_big :
  str_oid 0x64a1f00dcafe0123456789ab = "64a1f00dcafe0123456789ab".
Proof. vm_compute. reflexivity. Qed.

Example ObjectId_upper :
  ObjectId "64A1F00DCAFE0123456789AB" = Ok 0x64a1f00dcafe0123456789ab.
Proof. vm_compute. reflexivity. Qed.

Example ObjectId_short : ObjectId "abc" = Raise (InvalidId "abc").
Proof. reflexivity. Qed.

Example b64encode_Man :
  Base64.b64encode ["M"; "a"; "n"]%byte = "TWFu".
Proof. reflexivity. Qed.

Example b64encode_Ma : Base64.b64encode ["M"; "a"]%byte = "TWE=".
Proof. reflexivity. Qed.

Example b64encode_M : Base64.b64encode ["M"]%byte = "TQ==".
Proof. reflexivity. Qed.

Example dirname_image :
  Posixpath.dirname "/mnt/uploads/images/abc/image-0.jpg"
  = "/mnt/uploads/images/abc".
Proof. reflexivity. Qed.

Example dirname_root : Posixpath.dirname "/x" = "/".
Proof. reflexivity. Qed.

(** ** Running programs *)

Section RunFacts.

Context {A B : Type} (env : Env).

Lemma run_bind (m : Prog A) (f : A → Prog B) (w : World) :
  run env (m ≫= f) w =
  match result (run env m w) with
  | Ok a =>
      let r := run env (f a) (final (run env m w)) in
      {| result := result r; final := final r;
         trace := trace (run env m w) ++ trace r |}
  | Raise e =>
      {| result := Raise e; final := final (run env m w);
         trace := trace (run env m w) |}
  end.
Proof.
  revert w. induction m as [a|e|c k IH]; intros w.
  - change (Ret a ≫= f) with (f a). cbn. by destruct (run env (f a) w).
  - done.
  - change (Call c k ≫= f) with (Call c (λ x, k x ≫= f)). cbn [run].
    destruct (exec env c w) as [[x|e] w']; [|done].
    rewrite IH. cbn. by destruct (result (run env (k x) w')).
Qed.

End RunFacts.

(** ** Programs that make only some kinds of calls *)

Section OnlyFacts.

Context {A : Type} (env : Env).

Lemma only_bind {B : Type} (P : op → bool) (m : Prog A) (f : A → Prog B) :
  only P m → (∀ a, only P (f a)) → only P (m ≫= f).
Proof.
  intros Hm Hf. induction m as [a|e|c k IH]; [apply Hf | done |].
  destruct Hm as [Hc Hk]. split; [done|]. intros x. by apply IH.
Qed.

Lemma only_impl (P Q : op → bool) (p : Prog A) :
  (∀ c, P c = true → Q c = true) → only P p → only Q p.
Proof.
  intros HPQ. induction p as [a|e|c k IH]; [done..|].
  intros [Hc Hk]. split; [by apply HPQ|]. intros x. by apply IH.
Qed.

Lemma run_only (P : op → bool) (p : Prog A) (w : World) :
  only P p → Forall (λ c, P c = true) (trace (run env p w)).
Proof.
  revert w. induction p as [a|e|c k IH]; intros w Hp; [by constructor..|].
  destruct Hp as [Hc Hk]. cbn [run].
  destruct (exec env c w) as [[x|e] w']; cbn.
  - constructor; [done | by apply IH].
  - by repeat constructor.
Qed.

Lemma exec_harmless (c : op) (w : World) :
  harmless c = true →
  files_collection (exec env c w).2 = files_collection w
  ∧ queue (exec env c w).2 = queue w.
Proof.
  destruct c; try done; intros _; cbn.
  - unfold save_to_disk_at. by destruct (storage_fault env path).
  - by destruct (disk w !! file_path).
  - by destruct (jpeg env page).
  - by destruct (disk w !! path).
Qed.

Lemma run_harmless (p : Prog A) (w : World) :
  only harmless p →
  files_collection (final (run env p w)) = files_collection w
  ∧ queue (final (run env p w)) = queue w.
Proof.
  revert w. induction p as [a|e|c k IH]; intros w Hp; [done..|].
  destruct Hp as [Hc Hk]. cbn [run].
  pose proof (exec_harmless c w Hc) as [Hf Hq].
  destruct (exec env c w) as [[x|e] w']; cbn in *.
  - destruct (IH x w' (Hk x)) as [-> ->]. done.
  - done.
Qed.

End OnlyFacts.

Lemma passive_harmless (c : op) : passive c = true → harmless c = true.
Proof. unfold passive. by intros [? ?]%andb_true_iff. Qed.

(** ** Projections of a trace *)

Lemma updates_app (t1 t2 : list op) : updates (t1 ++ t2) = updates t1 ++ updates t2.
Proof. apply omap_app. Qed.

Lemma status_writes_app (t1 t2 : list op) :
  status_writes (t1 ++ t2) = status_writes t1 ++ status_writes t2.
Proof. unfold status_writes. by rewrite updates_app, omap_app. Qed.

Lemma result_writes_app (t1 t2 : list op) :
  result_writes (t1 ++ t2) = result_writes t1 ++ result_writes t2.
Proof. unfold result_writes. by rewrite updates_app, filter_app. Qed.

Lemma chat_requests_app (t1 t2 : list op) :
  chat_requests (t1 ++ t2) = chat_requests t1 ++ chat_requests t2.
Proof. apply omap_app. Qed.

Lemma updates_harmless (t : list op) :
  Forall (λ c, harmless c = true) t → updates t = [].
Proof.
  induction 1 as [|c t Hc _ IH]; [done|].
  destruct c; try done; apply IH.
Qed.

Lemma chat_requests_passive (t : list op) :
  Forall (λ c, passive c = true) t → chat_requests t = [].
Proof.
  induction 1 as [|c t Hc _ IH]; [done|].
  destruct c; try done; apply IH.
Qed.

(** ** The collection *)

Section CollectionFacts.

Implicit Types (c : list Doc) (d set : Doc) (v : bson).

Lemma matches_id v d :
  Collection.matches {["_id" := v]} d = bool_decide (d !! "_id" = Some v).
Proof.
  unfold Collection.matches. apply bool_decide_ext.
  by rewrite map_Forall_singleton.
Qed.

Lemma matches_set v set d :
  set !! "_id" = None →
  Collection.matches {["_id" := v]} (set ∪ d) = Collection.matches {["_id" := v]} d.
Proof. intros Hs. rewrite !matches_id. by rewrite lookup_union_r. Qed.

Lemma find_Some c v d :
  Collection.find c {["_id" := v]} = Some d → d ∈ c ∧ d !! "_id" = Some v.
Proof.
  induction c as [|d' c IH]; [done|]. cbn.
  destruct (Collection.matches _ d') eqn:Hm.
  - intros [= ->]. split; [left|].
    rewrite matches_id in Hm. by apply bool_decide_eq_true in Hm.
  - intros [? ?]%IH. split; [by right | done].
Qed.

Lemma find_None c v :
  Collection.find c {["_id" := v]} = None ↔ ∀ d, d ∈ c → d !! "_id" ≠ Some v.
Proof.
  induction c as [|d' c IH]; cbn.
  - split; [|done]. intros _ d Hd. by apply elem_of_nil in Hd.
  - rewrite matches_id. case_bool_decide as Hm.
    + split; [done|]. intros H. destruct (H d'); [left | done].
    + rewrite IH. split.
      * intros H d [->|Hd]%elem_of_cons; [done | by apply H].
      * intros H d Hd. apply H. by right.
Qed.

Lemma update_None c v set :
  Collection.find c {["_id" := v]} = None →
  Collection.update c {["_id" := v]} set = c.
Proof.
  induction c as [|d c IH]; [done|]. cbn.
  destruct (Collection.matches _ d); [done|]. intros H. by rewrite IH.
Qed.

Lemma find_update v set c :
  set !! "_id" = None →
  Collection.find (Collection.update c {["_id" := v]} set) {["_id" := v]}
  = (set ∪.) <$> Collection.find c {["_id" := v]}.
Proof.
  intros Hs. induction c as [|d c IH]; [done|]. cbn.
  destruct (Collection.matches _ d) eqn:Hm; cbn.
  - by rewrite matches_set, Hm.
  - by rewrite Hm.
Qed.

End CollectionFacts.

(** ** The stages of the worker *)

Section WorkerFacts.

Context (env : Env).

Lemma run_call (c : op) (w : World) :
  run env (call c) w =
  {| result := (exec env c w).1; final := (exec env c w).2; trace := [c] |}.
Proof. unfold call. cbn. by destruct (exec env c w) as [[x|e] w']. Qed.

Lemma run_set_status (id : string) (o : N) (set : Doc) (w : World) :
  ObjectId id = Ok o →
  run env (set_status id set) w =
  {| result := Ok tt;
     final := with_files (Collection.update (files_collection w) (by_id o) set) w;
     trace := [update_one (by_id o) set] |}.
Proof. intros H. unfold set_status. by rewrite H. Qed.

Lemma run_set_status_invalid (id : string) (e : exn) (set : Doc) (w : World) :
  ObjectId id = Raise e →
  run env (set_status id set) w = {| result := Raise e; final := w; trace := [] |}.
Proof. intros H. unfold set_status. by rewrite H. Qed.

Lemma save_pages_passive (id : string) (i : nat) (pages : list Page) :
  only passive (save_pages id i pages).
Proof.
  revert i. induction pages as [|page pages IH]; intros i; [done|].
  cbn. split; [done|]. intros _. split; [done|]. intros _.
  apply only_bind; [apply IH | done].
Qed.

Lemma encode_images_passive (images : list string) :
  only passive (encode_images images).
Proof.
  induction images as [|img images IH]; [done|].
  cbn. split; [done|]. intros bytes. apply only_bind; [apply IH | done].
Qed.

End WorkerFacts.

Section WorkerRun.

Context (env : Env) (w : World) (id file_path : string) (o : N).
Hypothesis Hid : ObjectId id = Ok o.

Local Abbreviation mark s := (update_one (by_id o) {["status" := BStr s]}).
Local Abbreviation marked s c := (Collection.update c (by_id o) {["status" := BStr s]}).
Local Abbreviation r := (run env (process_file id file_path) w).
Local Abbreviation c2 :=
  (marked "Converting to images" (marked "processing" (files_collection w))).
Local Abbreviation c3 := (marked "Converting to images success" c2).
Local Abbreviation is_passive := (Forall (λ c, passive c = true)).

Local Ltac same_trace :=
  cbn [app]; rewrite ?app_nil_r, <- ?app_assoc; cbn [app]; reflexivity.

(** Every run of the worker on a well-formed identifier has one of four
    shapes, by the stage it reached. *)
Lemma process_file_run :
  ∃ t1, is_passive t1 ∧
    ((∃ e, result r = Raise e
        ∧ trace r = [mark "processing"; mark "Converting to images"] ++ t1
        ∧ files_collection (final r) = c2)
     ∨ ∃ t2, is_passive t2 ∧
        ((∃ e, result r = Raise e
            ∧ trace r = [mark "processing"; mark "Converting to images"] ++ t1
                        ++ [mark "Converting to images success"] ++ t2
            ∧ files_collection (final r) = c3)
         ∨ (∃ e request, result r = Raise e
            ∧ gemini env request = Raise e
            ∧ trace r = [mark "processing"; mark "Converting to images"] ++ t1
                        ++ [mark "Converting to images success"] ++ t2
                        ++ [chat_completions_create request]
            ∧ files_collection (final r) = c3)
         ∨ (∃ request text, result r = Ok tt
            ∧ gemini env request = Ok text
            ∧ trace r = [mark "processing"; mark "Converting to images"] ++ t1
                        ++ [mark "Converting to images success"] ++ t2
                        ++ [chat_completions_create request;
                            update_one (by_id o)
                              {["status" := BStr "Processed"; "result" := BStr text]}]
            ∧ files_collection (final r)
              = Collection.update c3 (by_id o)
                  {["status" := BStr "Processed"; "result" := BStr text]}))).
Proof.
  unfold process_file.
  rewrite run_bind, (run_set_status env id o) by done. cbn [result final trace].
  rewrite run_bind, (run_set_status env id o) by done. cbn [result final trace].
  set (w2 := with_files _ (with_files _ w)).
  rewrite run_bind, (run_call env (convert_from_path file_path)).
  cbn [result final trace].
  destruct (exec env (convert_from_path file_path) w2) as [[pages|e] w2'] eqn:Hconv;
    cbn [fst snd].
  2: { exists [convert_from_path file_path]. split; [by repeat constructor|].
       left. exists e. split_and!; [done..|].
       pose proof (exec_harmless env (convert_from_path file_path) w2 eq_refl) as [Hf _].
       by rewrite Hconv in Hf. }
  assert (files_collection w2' = c2) as Hw2'.
  { pose proof (exec_harmless env (convert_from_path file_path) w2 eq_refl) as [Hf _].
    by rewrite Hconv in Hf. }
  rewrite run_bind.
  pose proof (run_only env passive _ w2' (save_pages_passive id 0 pages)) as Hts.
  pose proof (run_harmless env _ w2'
    (only_impl _ _ _ passive_harmless (save_pages_passive id 0 pages))) as [Hfs _].
  set (rs := run env (save_pages id 0 pages) w2') in *.
  exists (convert_from_path file_path :: trace rs).
  split; [by constructor|].
  destruct (result rs) as [images|e]; cbn [result final trace].
  2: { left. exists e. split_and!; [done..|]. by rewrite Hfs. }
  right.
  rewrite run_bind, (run_set_status env id o) by done. cbn [result final trace].
  rewrite Hfs, Hw2'. set (w3 := with_files c3 (final rs)).
  rewrite run_bind.
  pose proof (run_only env passive _ w3 (encode_images_passive images)) as Hte.
  pose proof (run_harmless env _ w3
    (only_impl _ _ _ passive_harmless (encode_images_passive images))) as [Hfe _].
  set (re := run env (encode_images images) w3) in *.
  exists (trace re). split; [done|].
  destruct (result re) as [image_base64|e]; cbn [result final trace].
  2: { left. exists e. split_and!; [done | | done].
       same_trace. }
  rewrite run_bind. unfold index.
  destruct (image_base64 !! 0%nat) as [image0|]; cbn [run result final trace].
  2: { left. exists IndexError. split_and!; [done | | done].
       same_trace. }
  rewrite run_bind, (run_call env (chat_completions_create _)).
  cbn [exec fst snd result final trace].
  destruct (gemini env (roast_request image0)) as [text|e] eqn:Hg;
    cbn [result final trace].
  2: { right; left. exists e, (roast_request image0).
       split_and!; [done.. | | done]. same_trace. }
  right; right. exists (roast_request image0), text.
  rewrite (run_set_status env id o) by done. cbn [result final trace].
  split_and!; [done..| |].
  - same_trace.
  - cbn. by rewrite Hfe.
Qed.

End WorkerRun.

(** ** What a trace of the worker writes *)

Section TraceFacts.

Implicit Types (f set : Doc) (v : bson) (t : list op).

Lemma not_id_status v : ({["status" := v]} : Doc) !! "_id" = None.
Proof. done. Qed.



Lemma result_writes_mark f v t :
  result_writes (update_one f {["status" := v]} :: t) = result_writes t.
Proof.
  unfold result_writes.
  change (updates (update_one f {["status" := v]} :: t))
    with ((f, {["status" := v]} : Doc) :: updates t).
  rewrite filter_cons_False; [done|]. cbn. by intros [? ?].
Qed.

Lemma status_writes_passive t :
  Forall (λ c, passive c = true) t → status_writes t = [].
Proof.
  intros Ht. unfold status_writes. rewrite updates_harmless; [done|].
  eapply Forall_impl; [done|]. apply passive_harmless.
Qed.

Lemma result_writes_passive t :
  Forall (λ c, passive c = true) t → result_writes t = [].
Proof.
  intros Ht. unfold result_writes. rewrite updates_harmless; [done|].
  eapply Forall_impl; [done|]. apply passive_harmless.
Qed.

End TraceFacts.

(** ** The worker: order of the stages, completion, faults *)

Lemma process_file_invalid (env : Env) (w : World) (id file_path : string) (e : exn) :
  ObjectId id = Raise e →
  run env (process_file id file_path) w
  = {| result := Raise e; final := w; trace := [] |}.
Proof.
  intros H. unfold process_file.
  by rewrite run_bind, (run_set_status_invalid env id e).
Qed.



(** The record of the job after the three intermediate marks. *)
Lemma find_marked (c : list Doc) (o : N) (d : Doc) (v1 v2 v3 : bson) :
  Collection.find c (by_id o) = Some d →
  Collection.find
    (Collection.update
       (Collection.update (Collection.update c (by_id o) {["status" := v1]})
          (by_id o) {["status" := v2]})
       (by_id o) {["status" := v3]}) (by_id o)
  = Some (<["status" := v3]> d)
  ∧ Collection.find
      (Collection.update (Collection.update c (by_id o) {["status" := v1]})
         (by_id o) {["status" := v2]}) (by_id o)
    = Some (<["status" := v2]> d).
Proof.
  intros Hd. unfold by_id in *.
  rewrite !find_update, Hd by apply not_id_status. cbn.
  by rewrite <- !insert_union_singleton_l, !insert_insert_eq.
Qed.


(** C8. When a run of the worker on a job ends in a fault, the status of
    the record is the last status the run wrote, "Converting to images" or
    "Converting to images success", the rest of the record is as it was,
    and no call of the run writes a result. *)
Theorem fault_keeps_last_status
    (env : Env) (w : World) (id file_path : string) (o : N) (d : Doc) (e : exn) :
  ObjectId id = Ok o →
  Collection.find (files_collection w) (by_id o) = Some d →
  result (run env (process_file id file_path) w) = Raise e →
  ∃ s : string,
    (s = "Converting to images" ∨ s = "Converting to images success")
    ∧ last (status_writes (trace (run env (process_file id file_path) w)))
      = Some (BStr s)
    ∧ Collection.find
        (files_collection (final (run env (process_file id file_path) w)))
        (by_id o)
      = Some (<["status" := BStr s]> d)
    ∧ result_writes (trace (run env (process_file id file_path) w)) = [].
Proof.
  intros Hid Hd Hraise.
  destruct (find_marked (files_collection w) o d (BStr "processing")
    (BStr "Converting to images") (BStr "Converting to images success") Hd)
    as [Hm3 Hm2].
  destruct (process_file_run env w id file_path o Hid)
    as (t1 & Ht1 & [(e1 & _ & Ht & Hf) | (t2 & Ht2 & H)]).
  - exists "Converting to images". rewrite Ht, Hf, Hm2.
    rewrite status_writes_app, result_writes_app,
      (status_writes_passive t1 Ht1), (result_writes_passive t1 Ht1).
    split_and!; [by left | done | done |].
    by rewrite app_nil_r, !result_writes_mark.
  - assert (∃ t3, trace (run env (process_file id file_path) w)
        = [update_one (by_id o) {["status" := BStr "processing"]};
           update_one (by_id o) {["status" := BStr "Converting to images"]}]
          ++ t1
          ++ [update_one (by_id o) {["status" := BStr "Converting to images success"]}]
          ++ t2 ++ t3
        ∧ status_writes t3 = [] ∧ result_writes t3 = []
        ∧ files_collection (final (run env (process_file id file_path) w))
          = Collection.update
              (Collection.update
                 (Collection.update (files_collection w) (by_id o)
                    {["status" := BStr "processing"]})
                 (by_id o) {["status" := BStr "Converting to images"]})
              (by_id o) {["status" := BStr "Converting to images success"]})
      as (t3 & Ht & Hs3 & Hr3 & Hf).
    { destruct H as [(e1 & _ & Ht & Hf) | [(e1 & q & _ & _ & Ht & Hf)
                                          | (q & text & Hr & _)]].
      - exists []. by rewrite app_nil_r.
      - by exists [chat_completions_create q].
      - congruence. }
    exists "Converting to images success". rewrite Ht, Hf, Hm3.
    rewrite !status_writes_app, !result_writes_app,
      (status_writes_passive t1 Ht1), (result_writes_passive t1 Ht1),
      (status_writes_passive t2 Ht2), (result_writes_passive t2 Ht2), Hs3, Hr3.
    split_and!; [by right | done | done |].
    cbn [app]. by rewrite !result_writes_mark.
Qed.

(** C10. When the document rasterizes to no page at all, the worker's
    access to the first encoded image raises [IndexError]: the run made
    the three intermediate status updates and the rasterizer call and
    nothing else, so the remote model is never called, no result is
    written, and the last status written, which the record keeps, is
    "Converting to images success". *)
Theorem zero_pages_stops_before_remote_call
    (env : Env) (w : World) (id file_path : string) (o : N) (bytes : list byte) :
  ObjectId id = Ok o →
  disk w !! file_path = Some bytes →
  pdf2image env bytes = Ok [] →
  result (run env (process_file id file_path) w) = Raise IndexError
  ∧ trace (run env (process_file id file_path) w)
    = [update_one (by_id o) {["status" := BStr "processing"]};
       update_one (by_id o) {["status" := BStr "Converting to images"]};
       convert_from_path file_path;
       update_one (by_id o) {["status" := BStr "Converting to images success"]}]
  ∧ chat_requests (trace (run env (process_file id file_path) w)) = []
  ∧ result_writes (trace (run env (process_file id file_path) w)) = []
  ∧ last (status_writes (trace (run env (process_file id file_path) w)))
    = Some (BStr "Converting to images success")
  ∧ ∀ d, Collection.find (files_collection w) (by_id o) = Some d →
      Collection.find
        (files_collection (final (run env (process_file id file_path) w)))
        (by_id o)
      = Some (<["status" := BStr "Converting to images success"]> d).
Proof.
  intros Hid Hdisk Hpdf.
  assert (run env (process_file id file_path) w
    = {| result := Raise IndexError;
         final := with_files
           (Collection.update
              (Collection.update
                 (Collection.update (files_collection w) (by_id o)
                    {["status" := BStr "processing"]})
                 (by_id o) {["status" := BStr "Converting to images"]})
              (by_id o) {["status" := BStr "Converting to images success"]}) w;
         trace :=
           [update_one (by_id o) {["status" := BStr "processing"]};
            update_one (by_id o) {["status" := BStr "Converting to images"]};
            convert_from_path file_path;
            update_one (by_id o) {["status" := BStr "Converting to images success"]}]
      |}) as ->.
  { unfold process_file.
    rewrite run_bind, (run_set_status env id o) by done. cbn [result final trace].
    rewrite run_bind, (run_set_status env id o) by done. cbn [result final trace].
    rewrite run_bind, (run_call env (convert_from_path file_path)).
    cbn [exec with_files disk]. rewrite Hdisk, Hpdf. cbn [fst snd result final trace].
    change (save_pages id 0 []) with (Ret (@nil string)).
    rewrite run_bind. cbn [run result final trace].
    rewrite run_bind, (run_set_status env id o) by done. cbn [result final trace].
    done. }
  cbn [result final trace with_files files_collection].
  split_and!; [done..| |].
  - by vm_compute.
  - intros d Hd.
    by destruct (find_marked (files_collection w) o d (BStr "processing")
      (BStr "Converting to images") (BStr "Converting to images success") Hd)
      as [-> _].
Qed.

(** ** The page images on disk *)

Lemma app_inj_2 (s1 s2 t : string) : s1 +:+ t = s2 +:+ t → s1 = s2.
Proof.
  revert s2. induction s1 as [|a s1 IH]; intros [|b s2] H; cbn in H.
  - done.
  - apply (f_equal String.length) in H. rewrite !length_app in H. cbn in H. lia.
  - apply (f_equal String.length) in H. rewrite !length_app in H. cbn in H. lia.
  - injection H as -> H. f_equal. by apply IH.
Qed.

Lemma image_save_path_inj (id : string) (i k : nat) :
  image_save_path id i = image_save_path id k → i = k.
Proof.
  unfold image_save_path. intros H.
  do 3 apply String.app_inj in H.
  apply app_inj_2 in H. by apply (inj pretty) in H.
Qed.

Lemma run_call_bind {B : Type} (env : Env) (c : op) (f : answer c → Prog B) (w : World) :
  run env (call c ≫= f) w =
  match exec env c w with
  | (Ok x, w') =>
      {| result := result (run env (f x) w'); final := final (run env (f x) w');
         trace := c :: trace (run env (f x) w') |}
  | (Raise e, w') => {| result := Raise e; final := w'; trace := [c] |}
  end.
Proof. reflexivity. Qed.

Section PageImages.

Context (env : Env) (id : string).
Hypothesis Hmk :
  ∀ k, makedirs_fault env (Posixpath.dirname (image_save_path id k)) = None.

Lemma run_save_pages (pages : list Page) (js : list (list byte)) (i : nat) (w : World) :
  Forall2 (λ p b, jpeg env p = Ok b) pages js →
  result (run env (save_pages id i pages) w)
  = Ok (image_save_path id <$> seq i (length pages))
  ∧ (∀ k b, js !! k = Some b →
       disk (final (run env (save_pages id i pages) w))
         !! image_save_path id (i + k) = Some b)
  ∧ (∀ path, (∀ k, (k < length pages)%nat → path ≠ image_save_path id (i + k)) →
       disk (final (run env (save_pages id i pages) w)) !! path = disk w !! path).
Proof.
  intros Hj. revert i w.
  induction Hj as [|page b pages js Hb _ IH]; intros i w; [done|].
  cbn [save_pages].
  rewrite (run_call_bind env (makedirs _)). cbn [exec].
  rewrite Hmk. cbn [fault_or_unit].
  rewrite (run_call_bind env (page_save _ _)). cbn [exec].
  rewrite Hb. cbn [result final trace].
  set (w' := with_disk _ w).
  rewrite run_bind.
  destruct (IH (S i) w') as (Hres & Hnew & Hold).
  rewrite Hres. cbn [result final trace run]. split_and!.
  - done.
  - intros [|k] b' Hk.
    + cbn in Hk. injection Hk as <-. rewrite Nat.add_0_r, Hold.
      * subst w'. cbn. apply lookup_insert_eq.
      * intros k _ H%image_save_path_inj. lia.
    + cbn in Hk. replace (i + S k)%nat with (S i + k)%nat by lia.
      by apply Hnew.
  - intros path Hpath. rewrite Hold.
    + subst w'. cbn. apply lookup_insert_ne.
      specialize (Hpath 0%nat). rewrite Nat.add_0_r in Hpath.
      intros ?. apply Hpath; [cbn; lia | done].
    + intros k Hk. replace (S i + k)%nat with (i + S k)%nat by lia.
      apply Hpath. cbn. lia.
Qed.

Lemma run_encode_images (images : list string) (bs : list (list byte)) (w : World) :
  Forall2 (λ path b, disk w !! path = Some b) images bs →
  run env (encode_images images) w
  = {| result := Ok (Base64.b64encode <$> bs); final := w;
       trace := open_read <$> images |}.
Proof.
  induction 1 as [|img b images bs Hb _ IH]; [done|].
  cbn [encode_images]. unfold encode_image.
  etrans.
  { exact (run_call_bind env (open_read img)
             (λ bytes, encode_images images
                         ≫= λ bs0, mret (Base64.b64encode bytes :: bs0)) w). }
  cbn [exec answer]. rewrite Hb.
  rewrite run_bind, IH. cbn [result final trace run]. by rewrite app_nil_r.
Qed.

End PageImages.

(** C3. For a document of n >= 1 pages whose pages are all saved, the run
    of the worker sends exactly one request to the remote model, and that
    request carries exactly one image: the data URL of the base64 form of
    the JPEG bytes the first page was saved as. *)
Theorem one_image_first_page
    (env : Env) (w : World) (id file_path : string) (o : N)
    (bytes : list byte) (page : Page) (pages : list Page)
    (b : list byte) (bs : list (list byte)) :
  ObjectId id = Ok o →
  disk w !! file_path = Some bytes →
  pdf2image env bytes = Ok (page :: pages) →
  (∀ k, makedirs_fault env (Posixpath.dirname (image_save_path id k)) = None) →
  Forall2 (λ p j, jpeg env p = Ok j) (page :: pages) (b :: bs) →
  chat_requests (trace (run env (process_file id file_path) w))
  = [roast_request (Base64.b64encode b)]
  ∧ images_of (roast_request (Base64.b64encode b))
    = ["data:image/jpeg;base64," +:+ Base64.b64encode b].
Proof.
  intros Hid Hdisk Hpdf Hmk Hjpeg. split; [|done].
  unfold process_file.
  rewrite run_bind, (run_set_status env id o) by done. cbn [result final trace].
  rewrite run_bind, (run_set_status env id o) by done. cbn [result final trace].
  rewrite run_bind, (run_call env (convert_from_path file_path)).
  cbn [exec answer with_files disk]. rewrite Hdisk, Hpdf.
  cbn [fst snd result final trace].
  set (w2 := with_files _ (with_files _ w)).
  rewrite run_bind.
  destruct (run_save_pages env id Hmk (page :: pages) (b :: bs) 0 w2 Hjpeg)
    as (Hres & Hnew & _).
  pose proof (run_only env passive _ w2 (save_pages_passive id 0 (page :: pages)))
    as Hts.
  set (rs := run env (save_pages id 0 (page :: pages)) w2) in *.
  rewrite Hres. cbn [result final trace].
  rewrite run_bind, (run_set_status env id o) by done. cbn [result final trace].
  set (w3 := with_files _ (final rs)).
  rewrite run_bind.
  rewrite (run_encode_images env _ (b :: bs) w3).
  2: { apply Forall2_same_length_lookup. split.
       - rewrite length_fmap, length_seq. by apply Forall2_length in Hjpeg.
       - intros k path b' Hpath Hb'.
         rewrite list_lookup_fmap in Hpath.
         destruct (seq 0 (length (page :: pages)) !! k) as [k'|] eqn:Hk; [|done].
         apply lookup_seq in Hk as [-> _]. injection Hpath as <-.
         subst w3. cbn [disk with_files]. by apply Hnew. }
  cbn [result final trace fmap list_fmap].
  rewrite run_bind. cbn [index lookup list_lookup run result final trace].
  rewrite run_bind, (run_call env (chat_completions_create _)).
  cbn [exec fst snd result final trace].
  rewrite !chat_requests_app, (chat_requests_passive _ Hts).
  rewrite (chat_requests_passive (open_read <$> _)).
  2: { apply Forall_fmap. by apply Forall_true. }
  destruct (gemini env (roast_request (Base64.b64encode b))) as [text|e].
  - rewrite (run_set_status env id o) by done. done.
  - done.
Qed.

(** ** The status handler *)

(** The answer of the status handler for a record that is found. *)
Lemma run_get_file_by_id
    (env : Env) (w : World) (id : string) (o : N) (d : Doc) (name status : bson) :
  ObjectId id = Ok o →
  Collection.find (files_collection w) (by_id o) = Some d →
  d !! "name" = Some name →
  d !! "status" = Some status →
  run env (get_file_by_id id) w
  = {| result := Ok {["_id" := BStr (str_oid o); "name" := name;
                      "status" := status;
                      "result" := default BNull (d !! "result")]};
       final := w;
       trace := [find_one (by_id o)] |}.
Proof.
  intros Hid Hd Hname Hstatus.
  destruct (find_Some _ _ _ Hd) as [_ Hoid].
  unfold get_file_by_id. rewrite Hid. cbn [lift].
  change (Ret o ≫= ?f) with (f o). cbv beta.
  rewrite (run_call_bind env (find_one _)). cbn [exec answer].
  fold (by_id o). rewrite Hd. cbn [subscript]. rewrite Hoid, Hname, Hstatus.
  reflexivity.
Qed.

(** C7. For an identifier whose record exists, the status handler returns
    an object with exactly the fields _id, name, status and result: _id is
    the string form of the record's identifier, name and status are the
    record's, and result is the record's result, or null when the record
    has no result field. *)
Theorem get_file_by_id_fields
    (env : Env) (w : World) (id : string) (o : N) (d : Doc) (name status : bson) :
  ObjectId id = Ok o →
  Collection.find (files_collection w) (by_id o) = Some d →
  d !! "name" = Some name →
  d !! "status" = Some status →
  ∃ response : Doc,
    result (run env (get_file_by_id id) w) = Ok response
    ∧ dom response = {["_id"; "name"; "status"; "result"]}
    ∧ response !! "_id" = Some (BStr (str_oid o))
    ∧ response !! "name" = Some name
    ∧ response !! "status" = Some status
    ∧ (d !! "result" = None → response !! "result" = Some BNull)
    ∧ (∀ v, d !! "result" = Some v → response !! "result" = Some v).
Proof.
  intros Hid Hd Hname Hstatus.
  rewrite (run_get_file_by_id env w id o d name status) by done.
  eexists. split; [reflexivity|].
  split_and!.
  - rewrite !dom_insert_L, dom_singleton_L. set_solver.
  - done.
  - done.
  - done.
  - intros ->. done.
  - intros v ->. done.
Qed.

Lemma ObjectId_Raise (s : string) (e : exn) : ObjectId s = Raise e → e = InvalidId s.
Proof.
  unfold ObjectId. destruct (Nat.eqb _ _); [|congruence].
  destruct (Hex.parse 0 s); congruence.
Qed.




(** ** The upload handler *)

(** The run of an upload whose write to storage succeeds. *)
Lemma run_upload_file (env : Env) (w : World) (file : UploadFile) :
  let o := Collection.next_oid (files_collection w) in
  let document : Doc :=
    {["name" := BStr (filename file); "status" := BStr "saving"]} in
  storage_fault env (upload_path (str_oid o) file) = None →
  run env (upload_file file) w
  = {| result := Ok {["file_id" := BStr (str_oid o)]};
       final :=
         {| files_collection :=
              Collection.update
                (files_collection w ++ [<["_id" := BOid o]> document])
                {["_id" := BStr (str_oid o)]} {["status" := BStr "queued"]};
            disk := <[upload_path (str_oid o) file := read file]> (disk w);
            queue := queue w ++ [(str_oid o, upload_path (str_oid o) file)] |};
       trace := upload_steps_listed (str_oid o) file
                ++ [update_one {["_id" := BStr (str_oid o)]}
                      {["status" := BStr "queued"]}] |}.
Proof.
  intros o document Hst. unfold upload_file.
  rewrite (run_call_bind env (insert_one _)). cbn [exec answer].
  unfold Collection.insert.
  change (({["name" := BStr (filename file); "status" := BStr "saving"]} : Doc)
            !! "_id") with (@None bson).
  cbn [str]. fold o. fold (upload_path (str_oid o) file).
  rewrite (run_call_bind env (save_to_disk _ _)). cbn [exec answer].
  unfold save_to_disk_at. rewrite Hst.
  rewrite (run_call_bind env (enqueue _ _)). cbn [exec answer].
  rewrite (run_call_bind env (update_one _ _)). cbn [exec answer].
  reflexivity.
Qed.

(** C5, as stated, fails: the calls of an upload are not just the three
    listed before the return. *)
Lemma upload_file_steps_listed_fails :
  trace (run quiet_env (upload_file cv) empty_world)
  ≠ upload_steps_listed "000000000000000000000000" cv.
Proof. intros H. apply (f_equal length) in H. vm_compute in H. discriminate. Qed.

(** C5, amended. An upload whose write to storage succeeds makes exactly
    these calls, in this order: it inserts a record with the file name and
    status "saving", writes the uploaded bytes at the path built from the
    new identifier and the file name, enqueues a task with the identifier
    and that path, issues one update that sets status to "queued", and
    then returns the identifier as file_id. The bytes are then on disk at
    that path and the task is the last of the queue. *)
Theorem upload_file_calls (env : Env) (w : World) (file : UploadFile) :
  storage_fault env
    (upload_path (str_oid (Collection.next_oid (files_collection w))) file) = None →
  ∃ filter : Doc,
    trace (run env (upload_file file) w)
    = upload_steps_listed (str_oid (Collection.next_oid (files_collection w))) file
      ++ [update_one filter {["status" := BStr "queued"]}]
    ∧ result (run env (upload_file file) w)
      = Ok {["file_id" := BStr (str_oid (Collection.next_oid (files_collection w)))]}
    ∧ disk (final (run env (upload_file file) w))
        !! upload_path (str_oid (Collection.next_oid (files_collection w))) file
      = Some (read file)
    ∧ queue (final (run env (upload_file file) w))
      = queue w ++ [(str_oid (Collection.next_oid (files_collection w)),
                     upload_path (str_oid (Collection.next_oid (files_collection w))) file)].
Proof.
  intros Hst. rewrite (run_upload_file env w file Hst).
  cbn [result final trace disk queue]. eexists.
  split_and!; [done.. | | done]. apply lookup_insert_eq.
Qed.

Lemma upload_file_calls_witness :
  storage_fault quiet_env
    (upload_path (str_oid (Collection.next_oid (files_collection empty_world))) cv)
  = None
  ∧ result (run quiet_env (upload_file cv) empty_world)
    = Ok {["file_id" := BStr (str_oid (Collection.next_oid (files_collection empty_world)))]}.
Proof.
  split; [reflexivity|].
  destruct (upload_file_calls quiet_env empty_world cv eq_refl) as (_ & _ & H & _).
  exact H.
Defined.

(** C1, on the code. The upload of [cv] into the empty world returns the
    new identifier, and the status lookup for that identifier right after
    it (no worker has run) finds the record with status "saving": the
    handler's update to "queued" filters on the string form of the
    identifier, which no record has as its ["_id"]. *)
Theorem upload_then_status_is_saving :
  result (run quiet_env (upload_file cv) empty_world)
  = Ok {["file_id" := BStr "000000000000000000000000"]}
  ∧ queue uploaded_world
    = [("000000000000000000000000", "/mnt/uploads/000000000000000000000000/cv.pdf")]
  ∧ result (run quiet_env (get_file_by_id "000000000000000000000000") uploaded_world)
    = Ok {["_id" := BStr "000000000000000000000000"; "name" := BStr "cv.pdf";
           "status" := BStr "saving"; "result" := BNull]}.
Proof. split_and!; vm_compute; reflexivity. Qed.

(** ** The statements at a concrete job *)

Lemma one_image_first_page_witness :
  ObjectId cv_id = Ok 0
  ∧ chat_requests (trace (run quiet_env (process_file cv_id cv_path) uploaded_world))
    = [roast_request (Base64.b64encode ["p"; "1"]%byte)].
Proof.
  split; [reflexivity|].
  refine (proj1 (one_image_first_page quiet_env uploaded_world cv_id cv_path 0
            (read cv) ["p"; "1"]%byte [["p"; "2"]; ["p"; "3"]]%byte
            ["p"; "1"]%byte [["p"; "2"]; ["p"; "3"]]%byte
            eq_refl eq_refl eq_refl (λ _, eq_refl) _)).
  repeat constructor.
Defined.


Lemma get_file_by_id_fields_witness :
  Collection.find (files_collection uploaded_world) (by_id 0) = Some cv_record
  ∧ ∃ response : Doc,
      result (run quiet_env (get_file_by_id cv_id) uploaded_world) = Ok response
      ∧ dom response = {["_id"; "name"; "status"; "result"]}
      ∧ response !! "_id" = Some (BStr (str_oid 0))
      ∧ response !! "name" = Some (BStr "cv.pdf")
      ∧ response !! "status" = Some (BStr "saving")
      ∧ (cv_record !! "result" = None → response !! "result" = Some BNull)
      ∧ (∀ v, cv_record !! "result" = Some v → response !! "result" = Some v).
Proof.
  split; [by vm_compute|].
  apply (get_file_by_id_fields quiet_env uploaded_world cv_id 0 cv_record);
    by vm_compute.
Defined.

Lemma fault_keeps_last_status_witness :
  result (run remote_down_env (process_file cv_id cv_path) uploaded_world)
  = Raise (ExternalError "remote model unavailable")
  ∧ ∃ s : string,
      (s = "Converting to images" ∨ s = "Converting to images success")
      ∧ last (status_writes
                (trace (run remote_down_env (process_file cv_id cv_path) uploaded_world)))
        = Some (BStr s)
      ∧ Collection.find
          (files_collection
             (final (run remote_down_env (process_file cv_id cv_path) uploaded_world)))
          (by_id 0)
        = Some (<["status" := BStr s]> cv_record)
      ∧ result_writes
          (trace (run remote_down_env (process_file cv_id cv_path) uploaded_world))
        = [].
Proof.
  split; [by vm_compute|].
  apply (fault_keeps_last_status remote_down_env uploaded_world cv_id cv_path 0
           cv_record (ExternalError "remote model unavailable"));
    by vm_compute.
Defined.

Lemma zero_pages_stops_before_remote_call_witness :
  pdf2image no_page_env (read cv) = Ok []
  ∧ result (run no_page_env (process_file cv_id cv_path) uploaded_world)
    = Raise IndexError.
Proof.
  split; [reflexivity|].
  exact (proj1 (zero_pages_stops_before_remote_call no_page_env uploaded_world
                  cv_id cv_path 0 (read cv) eq_refl eq_refl eq_refl)).
Defined.

(** ** The handlers follow the discipline *)

Lemma safe_bind_harmless {A B : Type} (own : option N) (m : Prog A) (f : A → Prog B) :
  only harmless m → (∀ a, safe own (f a)) → safe own (m ≫= f).
Proof.
  intros Hm Hf. induction m as [a|e|c k IH]; [apply Hf | done |].
  destruct Hm as [Hc Hk].
  change (Call c k ≫= f) with (Call c (λ x, k x ≫= f)).
  destruct c; try done; cbn; intros x; by apply IH.
Qed.

Lemma safe_mark {B : Type} (id : string) (o : N) (v : bson) (f : unit → Prog B) :
  ObjectId id = Ok o →
  (∀ x, safe (Some o) (f x)) →
  safe (Some o) (set_status id {["status" := v]} ≫= f).
Proof.
  intros Hid Hf. unfold set_status. rewrite Hid. cbn.
  right; left. by exists o, v.
Qed.

Lemma upload_file_safe (file : UploadFile) : safe None (upload_file file).
Proof.
  cbn. split_and!; [done..|]. intros o _. exists o.
  split_and!; [done..|]. intros _. left. by eexists.
Qed.

Lemma process_file_safe (id file_path : string) (o : N) :
  ObjectId id = Ok o → safe (Some o) (process_file id file_path).
Proof.
  intros Hid. unfold process_file.
  apply safe_mark; [done|]. intros _.
  apply safe_mark; [done|]. intros _.
  apply (safe_bind_harmless _ (call (convert_from_path file_path))); [done|].
  intros pages. apply safe_bind_harmless.
  { eapply only_impl; [apply passive_harmless | apply save_pages_passive]. }
  intros images. apply safe_mark; [done|]. intros _.
  apply safe_bind_harmless.
  { eapply only_impl; [apply passive_harmless | apply encode_images_passive]. }
  intros image_base64. apply safe_bind_harmless.
  { unfold index. by destruct (image_base64 !! 0%nat). }
  intros image0.
  apply (safe_bind_harmless _ (call (chat_completions_create _))); [done|].
  intros text. unfold set_status. rewrite Hid. cbn.
  right; right. by exists o, (BStr text).
Qed.

Lemma process_file_safe_invalid (id file_path : string) (e : exn) (own : option N) :
  ObjectId id = Raise e → safe own (process_file id file_path).
Proof. intros Hid. unfold process_file, set_status. by rewrite Hid. Qed.

(** ** Identifiers in the collection *)

Section OidFacts.

Implicit Types (c : list Doc) (d set filter : Doc) (o : N).

Lemma next_oid_cons c d :
  Collection.next_oid (d :: c)
  = match d !! "_id" with
    | Some (BOid o) => N.max (N.succ o) (Collection.next_oid c)
    | _ => Collection.next_oid c
    end.
Proof. done. Qed.

Lemma next_oid_lt c d o :
  d ∈ c → d !! "_id" = Some (BOid o) → o < Collection.next_oid c.
Proof.
  induction c as [|d' c IH]; intros Hd Ho; [by apply elem_of_nil in Hd|].
  rewrite next_oid_cons. apply elem_of_cons in Hd as [->|Hd].
  - rewrite Ho. lia.
  - specialize (IH Hd Ho). destruct (d' !! "_id") as [[]|]; lia.
Qed.

Lemma next_oid_snoc c d o :
  d !! "_id" = Some (BOid o) → Collection.next_oid c ≤ o →
  Collection.next_oid (c ++ [d]) = N.succ o.
Proof.
  intros Ho. induction c as [|d' c IH].
  - cbn. rewrite Ho. lia.
  - change ((d' :: c) ++ [d]) with (d' :: (c ++ [d])). rewrite !next_oid_cons.
    destruct (d' !! "_id") as [[]|]; intros Hle; rewrite IH; lia.
Qed.

Lemma elem_of_update c filter set d' :
  d' ∈ Collection.update c filter set →
  d' ∈ c ∨ ∃ d, d ∈ c ∧ Collection.matches filter d = true ∧ d' = set ∪ d.
Proof.
  induction c as [|d c IH]; cbn; [by left|].
  destruct (Collection.matches filter d) eqn:Hm.
  - intros [->|H]%elem_of_cons.
    + right. exists d. split_and!; [left | done..].
    + left. by right.
  - intros [->|H]%elem_of_cons; [left; left|].
    destruct (IH H) as [?|(d0 & ? & ? & ?)]; [left; by right|].
    right. exists d0. split_and!; [by right | done..].
Qed.

Lemma next_oid_update c filter set :
  set !! "_id" = None →
  Collection.next_oid (Collection.update c filter set) = Collection.next_oid c.
Proof.
  intros Hs. induction c as [|d c IH]; [done|]. cbn [Collection.update].
  destruct (Collection.matches filter d); rewrite !next_oid_cons.
  - by rewrite lookup_union_r.
  - by rewrite IH.
Qed.

(** An update under a [str] filter changes nothing in a collection whose
    records are identified by [ObjectId]s. *)
Lemma update_str_filter c s set :
  Forall has_oid c → Collection.update c {["_id" := BStr s]} set = c.
Proof.
  intros Hc. apply update_None, find_None. intros d Hd.
  rewrite Forall_forall in Hc. destruct (Hc d Hd) as [o Ho]. congruence.
Qed.

End OidFacts.

(** ** One call of a disciplined thread *)

Lemma advance_safe {A : Type} (env : Env) (p p' : Prog A) (w w' : World) (own : option N) :
  safe own p →
  advance env p w = Some (p', w') →
  ∃ own', effect w w' own own' ∧ safe own' p'.
Proof.
  destruct p as [a|e|c k]; [done..|]. cbn [advance safe].
  destruct c; cbn [exec answer].
  - (* insert_one *)
    intros (-> & Hid & Hres & Hk). unfold Collection.insert. rewrite Hid.
    intros [= <- <-]. eexists. split; [|apply Hk].
    by eapply eff_insert.
  - (* update_one *)
    intros [(s & -> & Hk) | [(o & v & -> & -> & -> & Hk)
                            | (o & v & -> & -> & -> & Hk)]];
      intros [= <- <-]; eexists; (split; [|apply Hk]).
    + by eapply eff_str.
    + by eapply eff_mark.
    + by eapply eff_final.
  - (* find_one *)
    intros Hk [= <- <-]. eexists. split; [by apply eff_quiet | apply Hk].
  - (* save_to_disk *)
    intros Hk. unfold save_to_disk_at.
    destruct (storage_fault env path); intros [= <- <-];
      eexists; (split; [by apply eff_quiet|]); [done | apply Hk].
  - (* enqueue *)
    intros (o & -> & -> & Hk) [= <- <-]. eexists. split; [|apply Hk].
    by eapply eff_enqueue.
  - (* convert_from_path *)
    intros Hk. destruct (disk w !! file_path) as [bytes|].
    + destruct (pdf2image env bytes); intros [= <- <-];
        eexists; (split; [by apply eff_quiet|]); [apply Hk | done].
    + intros [= <- <-]. eexists. split; [by apply eff_quiet | done].
  - (* makedirs *)
    intros Hk. destruct (makedirs_fault env dir); intros [= <- <-];
      eexists; (split; [by apply eff_quiet|]); [done | apply Hk].
  - (* page_save *)
    intros Hk. destruct (jpeg env page); intros [= <- <-];
      eexists; (split; [by apply eff_quiet|]); [apply Hk | done].
  - (* open_read *)
    intros Hk. destruct (disk w !! path); intros [= <- <-];
      eexists; (split; [by apply eff_quiet|]); [apply Hk | done].
  - (* chat_completions_create *)
    intros Hk. destruct (gemini env request); intros [= <- <-];
      eexists; (split; [by apply eff_quiet|]); [apply Hk | done].
Qed.

(** ** The invariant is kept by every call *)

Lemma elem_of_update_by_id (c : list Doc) (o : N) (set d' : Doc) :
  d' ∈ Collection.update c (by_id o) set →
  d' ∈ c ∨ ∃ d, d ∈ c ∧ d !! "_id" = Some (BOid o) ∧ d' = set ∪ d.
Proof.
  intros [?|(d & Hd & Hm & ->)]%elem_of_update; [by left|]. right.
  exists d. split_and!; [done | | done].
  unfold by_id in Hm. rewrite matches_id in Hm. by apply bool_decide_eq_true in Hm.
Qed.

Lemma has_oid_update (c : list Doc) (filter set : Doc) :
  set !! "_id" = None →
  Forall has_oid c → Forall has_oid (Collection.update c filter set).
Proof.
  intros Hs Hc. apply Forall_forall. intros d' Hd'.
  rewrite Forall_forall in Hc.
  apply elem_of_update in Hd' as [?|(d & Hd & _ & ->)]; [by apply Hc|].
  destruct (Hc d Hd) as [o Ho]. exists o. by rewrite lookup_union_r.
Qed.

Lemma lookup_insert_owner (owns : list (option N)) (i j : nat) (x y : option N) :
  <[i := x]> owns !! j = Some y →
  (j = i ∧ y = x) ∨ (j ≠ i ∧ owns !! j = Some y).
Proof.
  rewrite list_lookup_insert_Some.
  intros [(-> & -> & _)|[? ?]]; [by left | by right].
Qed.

Section Preservation.

Context (s s' : System) (owns : list (option N)) (tasks : list (N * string)).
Context (i : nat) (t' : thread).
Hypothesis HI : Inv s owns tasks.
Hypothesis Hthreads : threads s' = <[i := t']> (threads s).

(** A call that leaves the collection and the queue as they are. *)
Lemma inv_quiet (own : option N) :
  owns !! i = Some own → thread_safe own t' →
  files_collection (world s') = files_collection (world s) →
  queue (world s') = queue (world s) →
  Inv s' owns tasks.
Proof.
  intros Hi Ht Hf Hq. destruct HI as [H1 H2 H3 H4 H5 H6 H7 H8].
  split; rewrite ?Hf, ?Hq; try done.
  rewrite Hthreads, <- (list_insert_id owns i own) by done.
  by apply Forall2_insert.
Qed.

(** A status-only update of the job the thread holds. *)
Lemma inv_mark (o : N) (v : bson) :
  owns !! i = Some (Some o) → thread_safe (Some o) t' →
  files_collection (world s')
  = Collection.update (files_collection (world s)) (by_id o) {["status" := v]} →
  queue (world s') = queue (world s) →
  Inv s' owns tasks.
Proof.
  intros Hi Ht Hf Hq. destruct HI as [H1 H2 H3 H4 H5 H6 H7 H8].
  assert (held owns tasks o) as Ho by (left; by exists i).
  split; rewrite ?Hf, ?Hq; try done.
  - rewrite Hthreads, <- (list_insert_id owns i (Some o)) by done.
    by apply Forall2_insert.
  - by apply has_oid_update.
  - intros d' [Hd'|(d & Hd & Hid & ->)]%elem_of_update_by_id; [by apply H4|].
    rewrite lookup_union_r by done.
    destruct (H8 o Ho) as [_ Hnone]. rewrite (Hnone d Hd Hid). by intros [? ?].
  - intros o' Ho'. destruct (H8 o' Ho') as [Hlt Hnone].
    rewrite next_oid_update by done. split; [done|].
    intros d' [Hd'|(d & Hd & Hid & ->)]%elem_of_update_by_id; [by apply Hnone|].
    rewrite !lookup_union_r by done. by apply Hnone.
Qed.

(** The update that writes the result, after which the job is held no
    more. *)
Lemma inv_final (o : N) (v : bson) :
  owns !! i = Some (Some o) → thread_safe None t' →
  files_collection (world s')
  = Collection.update (files_collection (world s)) (by_id o)
      {["status" := BStr "Processed"; "result" := v]} →
  queue (world s') = queue (world s) →
  Inv s' (<[i := None]> owns) tasks.
Proof.
  intros Hi Ht Hf Hq. destruct HI as [H1 H2 H3 H4 H5 H6 H7 H8].
  assert (∀ j o', <[i := None]> owns !! j = Some (Some o') →
                  j ≠ i ∧ owns !! j = Some (Some o')) as Hold.
  { intros j o' [[_ [=]]|?]%lookup_insert_owner. done. }
  assert (∀ o', held (<[i := None]> owns) tasks o' → held owns tasks o' ∧ o' ≠ o)
    as Hheld.
  { intros o' [(j & [Hne Hj]%Hold)|Hq'].
    - split; [left; by exists j|]. intros ->. apply Hne. by eapply H5.
    - split; [by right|]. intros ->. by eapply H7. }
  split; rewrite ?Hf, ?Hq; try done.
  - rewrite Hthreads. by apply Forall2_insert.
  - by apply has_oid_update.
  - intros d' [Hd'|(d & Hd & Hid & ->)]%elem_of_update_by_id; [by apply H4|].
    intros _. by apply lookup_union_Some_l.
  - intros j1 j2 o' [_ Hj1]%Hold [_ Hj2]%Hold. by eapply H5.
  - intros j o' [_ Hj]%Hold. by eapply H7.
  - intros o' [Ho' Hne]%Hheld. destruct (H8 o' Ho') as [Hlt Hnone].
    rewrite next_oid_update by done. split; [done|].
    intros d' [Hd'|(d & Hd & Hid & ->)]%elem_of_update_by_id; [by apply Hnone|].
    rewrite lookup_union_r by done. congruence.
Qed.

(** The insert of a new record, whose job the thread then holds. *)
Lemma inv_insert (document : Doc) :
  owns !! i = Some None →
  thread_safe (Some (Collection.next_oid (files_collection (world s)))) t' →
  document !! "_id" = None → document !! "result" = None →
  files_collection (world s')
  = files_collection (world s)
    ++ [<["_id" := BOid (Collection.next_oid (files_collection (world s)))]> document] →
  queue (world s') = queue (world s) →
  Inv s' (<[i := Some (Collection.next_oid (files_collection (world s)))]> owns) tasks.
Proof.
  intros Hi Ht Hid Hres Hf Hq. destruct HI as [H1 H2 H3 H4 H5 H6 H7 H8].
  set (o := Collection.next_oid (files_collection (world s))) in *.
  assert (¬ held owns tasks o) as Hfresh.
  { intros Ho. destruct (H8 o Ho) as [Hlt _]. subst o. lia. }
  assert (∀ j o', <[i := Some o]> owns !! j = Some (Some o') →
                  (j = i ∧ o' = o) ∨ (j ≠ i ∧ owns !! j = Some (Some o'))) as Hold.
  { intros j o' [[-> Heq]|?]%lookup_insert_owner; [left | by right].
    split; [done | congruence]. }
  assert (Collection.next_oid (files_collection (world s')) = N.succ o) as Hnext.
  { rewrite Hf. apply next_oid_snoc; [apply lookup_insert_eq | subst o; lia]. }
  split; rewrite ?Hq; try done.
  - rewrite Hthreads. by apply Forall2_insert.
  - rewrite Hf. apply Forall_app. split; [done|].
    apply Forall_singleton. exists o. apply lookup_insert_eq.
  - rewrite Hf. intros d [Hd|Heq%list_elem_of_singleton]%elem_of_app; [by apply H4|].
    subst d. rewrite lookup_insert_ne, Hres by done. by intros [? ?].
  - intros j1 j2 o' [[-> ->]|[Hn1 Hj1]]%Hold [[-> Ho']|[Hn2 Hj2]]%Hold; try done.
    + destruct Hfresh. left. by exists j2.
    + subst o'. destruct Hfresh. left. by exists j1.
    + by eapply H5.
  - intros j o' [[-> ->]|[Hn Hj]]%Hold; [|by eapply H7].
    intros Hin. apply Hfresh. by right.
  - intros o' Ho'. rewrite Hnext, Hf.
    assert (o' = o ∨ held owns tasks o') as [->|Hheld].
    { destruct Ho' as [(j & [[-> ->]|[Hn Hj]]%Hold)|Hin];
        [by left | right; left; by exists j | right; by right]. }
    + split; [lia|].
      intros d [Hd|Heq%list_elem_of_singleton]%elem_of_app Hd'.
      * pose proof (next_oid_lt _ _ _ Hd Hd'). subst o. lia.
      * subst d. by rewrite lookup_insert_ne.
    + destruct (H8 o' Hheld) as [Hlt Hnone]. split; [lia|].
      intros d [Hd|Heq%list_elem_of_singleton]%elem_of_app Hd'; [by apply Hnone|].
      subst d. rewrite lookup_insert_eq in Hd'. injection Hd' as Heq. lia.
Qed.

(** The task of the job the thread holds is put on the queue. *)
Lemma inv_enqueue (o : N) (file_path : string) :
  owns !! i = Some (Some o) → thread_safe None t' →
  files_collection (world s') = files_collection (world s) →
  queue (world s') = queue (world s) ++ [(str_oid o, file_path)] →
  Inv s' (<[i := None]> owns) (tasks ++ [(o, file_path)]).
Proof.
  intros Hi Ht Hf Hq. destruct HI as [H1 H2 H3 H4 H5 H6 H7 H8].
  assert (∀ j o', <[i := None]> owns !! j = Some (Some o') →
                  j ≠ i ∧ owns !! j = Some (Some o')) as Hold.
  { intros j o' [[_ [=]]|?]%lookup_insert_owner. done. }
  assert (∀ o', held (<[i := None]> owns) (tasks ++ [(o, file_path)]) o' →
                held owns tasks o') as Hheld.
  { intros o' [(j & [_ Hj]%Hold)|Hin]; [left; by exists j|].
    rewrite fmap_app, elem_of_app in Hin.
    destruct Hin as [?|Heq%list_elem_of_singleton]; [by right|].
    subst o'. left. by exists i. }
  split; rewrite ?Hf; try done.
  - rewrite Hthreads. by apply Forall2_insert.
  - rewrite Hq, H2, fmap_app. done.
  - intros j1 j2 o' [_ Hj1]%Hold [_ Hj2]%Hold. by eapply H5.
  - rewrite fmap_app. apply NoDup_app. split_and!; [done | | apply NoDup_singleton].
    intros o' Hin Heq%list_elem_of_singleton. subst o'. by eapply H7.
  - intros j o' [Hn Hj]%Hold. rewrite fmap_app, elem_of_app.
    intros [Hin|Heq%list_elem_of_singleton]; [by eapply H7|].
    subst o'. apply Hn. by eapply H5.
  - intros o' Ho'%Hheld. by apply H8.
Qed.

End Preservation.

(** ** The invariant holds in every reachable state *)

Lemma held_snoc_None (owns : list (option N)) (tasks : list (N * string)) (o : N) :
  held (owns ++ [None]) tasks o → held owns tasks o.
Proof.
  intros [(j & Hj)|?]; [|by right]. left. exists j.
  apply lookup_app_Some in Hj as [?|[_ Hj]]; [done|].
  by destruct (j - length owns)%nat as [|[|?]].
Qed.

Lemma lookup_snoc_owner (owns : list (option N)) (x y : option N) (j : nat) :
  (owns ++ [x]) !! j = Some y →
  owns !! j = Some y ∨ (j = length owns ∧ y = x).
Proof.
  intros [?|[Hge Hj]]%lookup_app_Some; [by left|]. right.
  destruct (j - length owns)%nat as [|k] eqn:Hk; [|by destruct k].
  cbn in Hj. split; [lia | congruence].
Qed.

Lemma inv_request (s : System) (owns : list (option N)) (tasks : list (N * string))
    (file : UploadFile) :
  Inv s owns tasks →
  Inv {| world := world s; threads := threads s ++ [Upload (upload_file file)] |}
      (owns ++ [None]) tasks.
Proof.
  intros [H1 H2 H3 H4 H5 H6 H7 H8].
  assert (∀ j o, (owns ++ [None]) !! j = Some (Some o) → owns !! j = Some (Some o))
    as Hold.
  { intros j o [?|[_ [=]]]%lookup_snoc_owner. done. }
  split; cbn [world threads]; try done.
  - apply Forall2_app; [done|]. constructor; [apply upload_file_safe | constructor].
  - intros j1 j2 o Hj1%Hold Hj2%Hold. by eapply H5.
  - intros j o Hj%Hold. by eapply H7.
  - intros o Ho%held_snoc_None. by apply H8.
Qed.

Lemma inv_dequeue (s : System) (owns : list (option N)) (tasks : list (N * string))
    (id file_path : string) (q : list (string * string)) :
  Inv s owns tasks →
  queue (world s) = (id, file_path) :: q →
  ∃ owns' tasks',
    Inv {| world := with_queue q (world s);
           threads := threads s ++ [Worker (process_file id file_path)] |}
        owns' tasks'.
Proof.
  intros [H1 H2 H3 H4 H5 H6 H7 H8] Hq.
  rewrite Hq in H2. destruct tasks as [|[o path] tasks']; [done|].
  cbn in H2. injection H2 as -> -> ->.
  assert (∀ j o', (owns ++ [Some o]) !! j = Some (Some o') →
            owns !! j = Some (Some o') ∨ (j = length owns ∧ o' = o)) as Hold.
  { intros j o' [?|[-> Heq]]%lookup_snoc_owner; [by left | right].
    split; [done | congruence]. }
  cbn [fmap list_fmap fst] in H6, H7. apply NoDup_cons in H6 as [Hnew H6].
  exists (owns ++ [Some o]), tasks'.
  split; cbn [world threads with_queue files_collection queue]; try done.
  - apply Forall2_app; [done|]. constructor; [|constructor]. cbn.
    destruct (ObjectId (str_oid o)) as [o'|e] eqn:Hid.
    + apply ObjectId_str_oid_inv in Hid as Heq. subst o'.
      by apply process_file_safe.
    + by eapply process_file_safe_invalid.
  - intros j1 j2 o' [Hj1|[-> ->]]%Hold [Hj2|[-> Heq]]%Hold.
    + by eapply H5.
    + subst o'. destruct (H7 j1 o Hj1). left.
    + destruct (H7 j2 o Hj2). left.
    + done.
  - intros j o' [Hj|[-> ->]]%Hold; [|done].
    intros Hin. apply (H7 j o' Hj). by right.
  - intros o' Ho'. apply H8.
    destruct Ho' as [(j & [Hj|[_ ->]]%Hold)|Hin].
    + left. by exists j.
    + right. left.
    + right. by right.
Qed.

Lemma inv_next (s : System) (owns : list (option N)) (tasks : list (N * string))
    (env : Env) (i : nat) (t t' : thread) (w' : World) :
  Inv s owns tasks →
  threads s !! i = Some t →
  thread_call env t (world s) = Some (t', w') →
  invariant {| world := w'; threads := <[i := t']> (threads s) |}.
Proof.
  intros HI Ht Hcall.
  destruct (Forall2_lookup_r _ _ _ _ _ (inv_threads _ _ _ HI) Ht) as (own & Hown & Hsafe).
  assert (∃ own', effect (world s) w' own own' ∧ thread_safe own' t')
    as (own' & Heff & Hsafe').
  { destruct t as [p|p]; cbn in Hcall, Hsafe;
      destruct (advance env p (world s)) as [[p' w'']|] eqn:Hadv; try done;
      cbn in Hcall; injection Hcall as <- <-;
      by eapply advance_safe. }
  set (s' := {| world := w'; threads := <[i := t']> (threads s) |}).
  destruct Heff as [own Hf Hq | own f set Hf Hq | document Hid Hres Hf Hq
                    | o path Hf Hq | o v Hf Hq | o v Hf Hq].
  - exists owns, tasks. by eapply (inv_quiet s s').
  - exists owns, tasks. eapply (inv_quiet s s'); try done.
    cbn. rewrite Hf. apply update_str_filter. by destruct HI.
  - eexists _, tasks. by eapply (inv_insert s s').
  - eexists _, _. by eapply (inv_enqueue s s').
  - exists owns, tasks. by eapply (inv_mark s s').
  - eexists _, tasks. by eapply (inv_final s s').
Qed.

Lemma act_invariant (a : action) (s s' : System) :
  act a s = Some s' → invariant s → invariant s'.
Proof.
  intros Hact (owns & tasks & HI). destruct a as [file| |env i]; cbn in Hact.
  - injection Hact as <-. eexists _, _. by apply inv_request.
  - destruct (queue (world s)) as [|[id file_path] q] eqn:Hq; [done|].
    injection Hact as <-. by eapply inv_dequeue.
  - destruct (threads s !! i) as [t|] eqn:Ht; [|done]. cbn in Hact.
    destruct (thread_call env t (world s)) as [[t' w']|] eqn:Hcall; [|done].
    cbn in Hact. injection Hact as <-. by eapply inv_next.
Qed.

Lemma invariant_initial : invariant initial.
Proof.
  exists [], []. split; cbn.
  - constructor.
  - done.
  - constructor.
  - intros d Hd. by apply elem_of_nil in Hd.
  - done.
  - constructor.
  - done.
  - intros o [(j & Hj)|Hin]; [done | by apply elem_of_nil in Hin].
Qed.

Lemma reachable_invariant (s : System) : reachable s → invariant s.
Proof.
  revert s. apply rtc_ind_r; [apply invariant_initial|].
  intros s s' _ [a Hact] IH. by eapply act_invariant.
Qed.

Lemma play_reachable (acts : list action) (s s' : System) :
  reachable s → play acts s = Some s' → reachable s'.
Proof.
  revert s. induction acts as [|a acts IH]; intros s Hs; cbn.
  - by intros [= <-].
  - destruct (act a s) as [s1|] eqn:Hact; [|done]. cbn. apply IH.
    eapply rtc_r; [done|]. by exists a.
Qed.

(** C9. In every state the system can reach by requests, dequeues and
    calls of upload and worker threads, interleaved in any way and with
    any behaviour of the collaborators, a record that has a result field
    has status "Processed". *)
Theorem result_only_if_Processed (s : System) (d : Doc) :
  reachable s →
  d ∈ files_collection (world s) →
  is_Some (d !! "result") →
  d !! "status" = Some (BStr "Processed").
Proof.
  intros (owns & tasks & HI)%reachable_invariant. by apply (inv_result _ _ _ HI).
Qed.

Lemma result_only_if_Processed_witness :
  reachable cv_processed_system
  ∧ files_collection (world cv_processed_system) = [cv_processed]
  ∧ is_Some (cv_processed !! "result")
  ∧ cv_processed !! "status" = Some (BStr "Processed").
Proof.
  assert (reachable cv_processed_system) as Hreach.
  { apply (play_reachable cv_schedule initial); [apply rtc_refl|].
    vm_compute. reflexivity. }
  assert (files_collection (world cv_processed_system) = [cv_processed]) as Hfiles.
  { vm_compute. reflexivity. }
  split_and!; [done.. | by eexists |].
  apply (result_only_if_Processed cv_processed_system cv_processed Hreach).
  - rewrite Hfiles. left.
  - by eexists.
Defined.

(** ** Every upload leaves its record at "saving" *)

Lemma find_snoc (c : list Doc) (d : Doc) (v : bson) :
  Collection.find c {["_id" := v]} = None →
  Collection.find (c ++ [d]) {["_id" := v]} = Collection.find [d] {["_id" := v]}.
Proof.
  induction c as [|d' c IH]; [done|]. cbn.
  destruct (Collection.matches _ d'); [done | apply IH].
Qed.

(** What C1 misses, for every upload and not only the one evaluated: in a
    collection of records identified by 96-bit [ObjectId]s, the lookup
    right after an upload whose write succeeds finds the new record with
    status "saving". *)
Lemma upload_leaves_status_saving (env : Env) (w : World) (file : UploadFile) :
  Forall has_oid (files_collection w) →
  Collection.next_oid (files_collection w) < 2 ^ 96 →
  storage_fault env
    (upload_path (str_oid (Collection.next_oid (files_collection w))) file) = None →
  result (run env
            (get_file_by_id (str_oid (Collection.next_oid (files_collection w))))
            (final (run env (upload_file file) w)))
  = Ok {["_id" := BStr (str_oid (Collection.next_oid (files_collection w)));
         "name" := BStr (filename file); "status" := BStr "saving";
         "result" := BNull]}.
Proof.
  intros Hoids Hlt Hst. rewrite (run_upload_file env w file Hst). cbn [final].
  set (o := Collection.next_oid (files_collection w)) in *.
  set (d := <["_id" := BOid o]> _).
  rewrite update_str_filter.
  2: { apply Forall_app. split; [done|]. apply Forall_singleton.
       exists o. apply lookup_insert_eq. }
  rewrite (run_get_file_by_id env _ (str_oid o) o d
             (BStr (filename file)) (BStr "saving")); [done | | | done..].
  - by apply ObjectId_str_oid.
  - cbn [files_collection]. unfold by_id. rewrite find_snoc.
    + cbn. rewrite matches_id, bool_decide_eq_true_2; [done|].
      apply lookup_insert_eq.
    + apply find_None. intros d' Hd' Hid.
      pose proof (next_oid_lt _ _ _ Hd' Hid). subst o. lia.
Qed.

(** * Further properties of the handlers and the worker *)

(** ** The status endpoints *)

(** X1. The two GET endpoints only read: the health check makes no call
    and answers its fixed payload, and a status lookup, whatever the
    identifier and however it ends, leaves the world as it was and makes
    at most one call, a [find_one]. *)
Theorem status_endpoints_read_only (env : Env) (w : World) (id : string) :
  run env health w
  = {| result := Ok {["status" := BStr "Server is up and running"]};
       final := w; trace := [] |}
  ∧ final (run env (get_file_by_id id) w) = w
  ∧ (trace (run env (get_file_by_id id) w) = []
     ∨ ∃ filter, trace (run env (get_file_by_id id) w) = [find_one filter]).
Proof.
  split; [done|]. unfold get_file_by_id.
  destruct (ObjectId id) as [o|e]; [|by split; [|left]].
  cbn [lift]. change (Ret o ≫= ?f) with (f o). cbv beta.
  rewrite (run_call_bind env (find_one _)). cbn [exec answer].
  destruct (Collection.find _ _) as [d|]; cbn [subscript].
  - destruct (d !! "_id"), (d !! "name"), (d !! "status");
      (split; [done | right; by eexists]).
  - split; [done | right; by eexists].
Qed.

(** X2. A record that is found but lacks a field makes the status lookup
    raise [KeyError]: for "name" when the name is absent, for "status"
    when only the status is. *)
Theorem get_file_by_id_missing_field
    (env : Env) (w : World) (id : string) (o : N) (d : Doc) :
  ObjectId id = Ok o →
  Collection.find (files_collection w) (by_id o) = Some d →
  (d !! "name" = None →
   result (run env (get_file_by_id id) w) = Raise (KeyError "name"))
  ∧ (is_Some (d !! "name") → d !! "status" = None →
     result (run env (get_file_by_id id) w) = Raise (KeyError "status")).
Proof.
  intros Hid Hd. destruct (find_Some _ _ _ Hd) as [_ Hoid].
  unfold get_file_by_id. rewrite Hid. cbn [lift].
  change (Ret o ≫= ?f) with (f o). cbv beta.
  rewrite (run_call_bind env (find_one _)). cbn [exec answer].
  fold (by_id o). rewrite Hd. cbn [subscript]. rewrite Hoid.
  split.
  - intros ->. done.
  - intros [name ->] ->. done.
Qed.

Lemma get_file_by_id_missing_field_witness :
  Collection.find
    (files_collection
       {| files_collection := [{["_id" := BOid 7; "name" := BStr "cv.pdf"]}];
          disk := ∅; queue := [] |}) (by_id 7)
  = Some {["_id" := BOid 7; "name" := BStr "cv.pdf"]}
  ∧ result (run quiet_env (get_file_by_id "000000000000000000000007")
              {| files_collection := [{["_id" := BOid 7; "name" := BStr "cv.pdf"]}];
                 disk := ∅; queue := [] |})
    = Raise (KeyError "status").
Proof.
  split; [by vm_compute|].
  refine (proj2 (get_file_by_id_missing_field quiet_env _
                   "000000000000000000000007" 7
                   {["_id" := BOid 7; "name" := BStr "cv.pdf"]} _ _) _ _).
  - by vm_compute.
  - by vm_compute.
  - by eexists.
  - by vm_compute.
Defined.

Lemma value_lt (c : ascii) (d : N) : Hex.value c = Some d → d < 16.
Proof.
  unfold Hex.value.
  repeat (destruct (_ && _) eqn:H;
          [apply andb_true_iff in H as [?%N.leb_le ?%N.leb_le];
           intros [= <-]; lia|]; clear H).
  done.
Qed.

Lemma parse_lt (s : string) (acc o : N) :
  Hex.parse acc s = Some o → o < (acc + 1) * 16 ^ N.of_nat (String.length s).
Proof.
  revert acc. induction s as [|c s IH]; intros acc; cbn [Hex.parse String.length].
  - intros [= <-]. cbn. lia.
  - destruct (Hex.value c) as [d|] eqn:Hd; [|done].
    apply value_lt in Hd. intros Ho%IH.
    rewrite Nat2N.inj_succ, N.pow_succ_r'. nia.
Qed.

Lemma ObjectId_lt (s : string) (o : N) : ObjectId s = Ok o → o < 2 ^ 96.
Proof.
  unfold ObjectId. destruct (Nat.eqb _ 24) eqn:Hlen; [|done].
  apply Nat.eqb_eq in Hlen.
  destruct (Hex.parse 0 s) as [o'|] eqn:Hp; [|done]. intros [= <-].
  apply parse_lt in Hp. rewrite Hlen in Hp.
  change (16 ^ N.of_nat 24) with (2 ^ 96) in Hp. lia.
Qed.

(** X3. The ["_id"] a status lookup returns is a 24-character identifier
    that the lookup accepts in turn, with the same answer; so an
    identifier given in upper case comes back in the form that names the
    same record. *)
Theorem get_file_by_id_returned_id
    (env : Env) (w : World) (id : string) (response : Doc) :
  result (run env (get_file_by_id id) w) = Ok response →
  ∃ s, response !! "_id" = Some (BStr s)
       ∧ String.length s = 24%nat
       ∧ result (run env (get_file_by_id s) w) = Ok response.
Proof.
  intros Hrun.
  destruct (ObjectId id) as [o|e] eqn:Hid.
  2: { unfold get_file_by_id in Hrun. by rewrite Hid in Hrun. }
  destruct (Collection.find (files_collection w) (by_id o)) as [d|] eqn:Hd.
  2: { revert Hrun. unfold get_file_by_id. rewrite Hid. cbn [lift].
       change (Ret o ≫= ?f) with (f o). cbv beta.
       rewrite (run_call_bind env (find_one _)). cbn [exec answer].
       fold (by_id o). by rewrite Hd. }
  destruct (find_Some _ _ _ Hd) as [_ Hoid].
  assert (∃ name status, d !! "name" = Some name ∧ d !! "status" = Some status)
    as (name & status & Hname & Hstatus).
  { revert Hrun. unfold get_file_by_id. rewrite Hid. cbn [lift].
    change (Ret o ≫= ?f) with (f o). cbv beta.
    rewrite (run_call_bind env (find_one _)). cbn [exec answer].
    fold (by_id o). rewrite Hd. cbn [subscript]. rewrite Hoid.
    destruct (d !! "name") as [name|]; [|done].
    destruct (d !! "status") as [status|]; [|done]. by exists name, status. }
  rewrite (run_get_file_by_id env w id o d name status) in Hrun by done.
  injection Hrun as <-.
  pose proof (ObjectId_lt id o Hid) as Hlt.
  exists (str_oid o). split_and!.
  - done.
  - by rewrite str_oid_96, length_digits.
  - rewrite (run_get_file_by_id env w (str_oid o) o d name status); [done | | done..].
    by apply ObjectId_str_oid.
Qed.

Lemma get_file_by_id_returned_id_witness :
  ObjectId "00000000000000000000000A" = Ok 10
  ∧ ∃ s, ({["_id" := BStr "00000000000000000000000a"; "name" := BStr "cv.pdf";
            "status" := BStr "saving"; "result" := BNull]} : Doc) !! "_id"
         = Some (BStr s)
       ∧ String.length s = 24%nat
       ∧ result (run quiet_env (get_file_by_id s)
                   {| files_collection :=
                        [{["_id" := BOid 10; "name" := BStr "cv.pdf";
                           "status" := BStr "saving"]}];
                      disk := ∅; queue := [] |})
         = Ok {["_id" := BStr "00000000000000000000000a"; "name" := BStr "cv.pdf";
                "status" := BStr "saving"; "result" := BNull]}.
Proof.
  split; [by vm_compute|].
  apply (get_file_by_id_returned_id quiet_env _ "00000000000000000000000A").
  by vm_compute.
Defined.

(** ** The upload handler at its edges *)

(** X4. When the write to storage fails, the upload ends in that fault
    after two calls: the record has been inserted, with status "saving",
    and stays; nothing is written to disk, nothing is enqueued and no
    update is made. *)
Theorem upload_file_storage_fault (env : Env) (w : World) (file : UploadFile) (e : exn) :
  storage_fault env
    (upload_path (str_oid (Collection.next_oid (files_collection w))) file) = Some e →
  run env (upload_file file) w
  = {| result := Raise e;
       final :=
         with_files
           (files_collection w
            ++ [{["_id" := BOid (Collection.next_oid (files_collection w));
                  "name" := BStr (filename file); "status" := BStr "saving"]}]) w;
       trace :=
         [insert_one {["name" := BStr (filename file); "status" := BStr "saving"]};
          save_to_disk (read file)
            (upload_path (str_oid (Collection.next_oid (files_collection w))) file)] |}.
Proof.
  intros Hst. unfold upload_file.
  rewrite (run_call_bind env (insert_one _)). cbn [exec answer].
  unfold Collection.insert.
  change (({["name" := BStr (filename file); "status" := BStr "saving"]} : Doc)
            !! "_id") with (@None bson).
  cbn [str]. fold (upload_path (str_oid (Collection.next_oid (files_collection w))) file).
  rewrite (run_call_bind env (save_to_disk _ _)). cbn [exec answer].
  unfold save_to_disk_at. cbn [with_files disk]. by rewrite Hst.
Qed.

Lemma upload_file_storage_fault_witness :
  storage_fault disk_full_env
    (upload_path (str_oid (Collection.next_oid (files_collection empty_world))) cv)
  = Some (ExternalError "disk full")
  ∧ queue (final (run disk_full_env (upload_file cv) empty_world)) = [].
Proof.
  split; [reflexivity|].
  by rewrite (upload_file_storage_fault disk_full_env empty_world cv
                (ExternalError "disk full") eq_refl).
Defined.



Lemma upload_leaves_status_saving_witness :
  Collection.next_oid (files_collection uploaded_world) < 2 ^ 96
  ∧ result (run quiet_env (get_file_by_id "000000000000000000000001")
              (final (run quiet_env (upload_file cv) uploaded_world)))
    = Ok {["_id" := BStr "000000000000000000000001"; "name" := BStr "cv.pdf";
           "status" := BStr "saving"; "result" := BNull]}.
Proof.
  split; [by vm_compute|].
  refine (upload_leaves_status_saving quiet_env uploaded_world cv _ _ eq_refl).
  - apply Forall_singleton. exists 0. by vm_compute.
  - by vm_compute.
Defined.

(** ** What the calls of a run change *)

Section AlwaysFacts.

Context {A : Type} (env : Env).

Lemma always_bind {B : Type} (P : op → Prop) (m : Prog A) (f : A → Prog B) :
  always P m → (∀ a, always P (f a)) → always P (m ≫= f).
Proof.
  intros Hm Hf. induction m as [a|e|c k IH]; [apply Hf | done |].
  destruct Hm as [Hc Hk]. split; [done|]. intros x. by apply IH.
Qed.

Lemma always_impl (P Q : op → Prop) (p : Prog A) :
  (∀ c, P c → Q c) → always P p → always Q p.
Proof.
  intros HPQ. induction p as [a|e|c k IH]; [done..|].
  intros [Hc Hk]. split; [by apply HPQ|]. intros x. by apply IH.
Qed.

Lemma only_always (P : op → bool) (p : Prog A) :
  only P p → always (λ c, P c = true) p.
Proof.
  induction p as [a|e|c k IH]; [done..|].
  intros [Hc Hk]. split; [done|]. intros x. by apply IH.
Qed.

Lemma run_always (P : op → Prop) (p : Prog A) (w : World) :
  always P p → Forall P (trace (run env p w)).
Proof.
  revert w. induction p as [a|e|c k IH]; intros w Hp; [by constructor..|].
  destruct Hp as [Hc Hk]. cbn [run].
  destruct (exec env c w) as [[x|e] w']; cbn.
  - constructor; [done | by apply IH].
  - by repeat constructor.
Qed.

Lemma exec_files (c : op) (w : World) :
  files_collection (exec env c w).2 = apply_call (files_collection w) c.
Proof.
  destruct c; cbn; try done.
  - by destruct (Collection.insert _ _).
  - unfold save_to_disk_at. by destruct (storage_fault env path).
  - by destruct (disk w !! file_path).
  - by destruct (jpeg env page).
  - by destruct (disk w !! path).
Qed.

Lemma exec_queue (c : op) (w : World) :
  queue (exec env c w).2 = queue w ++ enqueued [c].
Proof.
  destruct c; cbn; rewrite ?app_nil_r; try done.
  - by destruct (Collection.insert _ _).
  - unfold save_to_disk_at. by destruct (storage_fault env path).
  - by destruct (disk w !! file_path).
  - by destruct (jpeg env page).
  - by destruct (disk w !! path).
Qed.

Lemma exec_disk (c : op) (w : World) (path : string) :
  ¬ writes path c → disk (exec env c w).2 !! path = disk w !! path.
Proof.
  destruct c; cbn; try done.
  - by destruct (Collection.insert _ _).
  - intros Hne. unfold save_to_disk_at.
    destruct (storage_fault env path0); [done|]. cbn. by apply lookup_insert_ne.
  - by destruct (disk w !! file_path).
  - intros Hne. destruct (jpeg env page); [|done]. cbn. by apply lookup_insert_ne.
  - by destruct (disk w !! path0).
Qed.

(** The collection a run leaves is the one its calls make, in order. *)
Lemma files_replay (p : Prog A) (w : World) :
  files_collection (final (run env p w))
  = foldl apply_call (files_collection w) (trace (run env p w)).
Proof.
  revert w. induction p as [a|e|c k IH]; intros w; [done..|]. cbn [run].
  pose proof (exec_files c w) as Hc.
  destruct (exec env c w) as [[x|e] w']; cbn in *.
  - by rewrite IH, Hc.
  - done.
Qed.

Lemma queue_replay (p : Prog A) (w : World) :
  queue (final (run env p w)) = queue w ++ enqueued (trace (run env p w)).
Proof.
  revert w. induction p as [a|e|c k IH]; intros w; cbn [run].
  - by rewrite app_nil_r.
  - by rewrite app_nil_r.
  - pose proof (exec_queue c w) as Hc.
    destruct (exec env c w) as [[x|e] w']; cbn [final trace snd] in *.
    + rewrite IH, Hc. rewrite <- app_assoc. f_equal.
      unfold enqueued. by rewrite <- omap_app.
    + done.
Qed.

Lemma disk_untouched (p : Prog A) (w : World) (path : string) :
  Forall (λ c, ¬ writes path c) (trace (run env p w)) →
  disk (final (run env p w)) !! path = disk w !! path.
Proof.
  revert w. induction p as [a|e|c k IH]; intros w; [done..|]. cbn [run].
  pose proof (exec_disk c w path) as Hc.
  destruct (exec env c w) as [[x|e] w']; cbn [final trace snd] in *.
  - intros [Hw Ht]%Forall_cons. rewrite IH by done. by apply Hc.
  - intros [Hw _]%Forall_cons. by apply Hc.
Qed.

End AlwaysFacts.

(** ** The worker: what it touches *)

Lemma set_status_worker_call (id : string) (o : N) (set : Doc) :
  ObjectId id = Ok o → set !! "_id" = None →
  always (worker_call id o) (set_status id set).
Proof. intros Hid Hs. unfold set_status. rewrite Hid. by cbn. Qed.

Lemma save_pages_worker_call (id : string) (o : N) (i : nat) (pages : list Page) :
  always (worker_call id o) (save_pages id i pages).
Proof.
  revert i. induction pages as [|page pages IH]; intros i; [done|].
  cbn. split; [done|]. intros _. split; [by exists i|]. intros _.
  apply always_bind; [apply IH | done].
Qed.

Lemma encode_images_worker_call (id : string) (o : N) (images : list string) :
  always (worker_call id o) (encode_images images).
Proof.
  induction images as [|img images IH]; [done|].
  cbn. split; [done|]. intros bytes. apply always_bind; [apply IH | done].
Qed.

Lemma process_file_worker_calls (id file_path : string) (o : N) :
  ObjectId id = Ok o → always (worker_call id o) (process_file id file_path).
Proof.
  intros Hid. unfold process_file.
  apply always_bind; [by apply set_status_worker_call|]. intros _.
  apply always_bind; [by apply set_status_worker_call|]. intros _.
  apply (always_bind _ (call (convert_from_path file_path))); [done|].
  intros pages. apply always_bind; [apply save_pages_worker_call|].
  intros images. apply always_bind; [by apply set_status_worker_call|]. intros _.
  apply always_bind; [apply encode_images_worker_call|].
  intros image_base64. apply always_bind.
  { unfold index. by destruct (image_base64 !! 0%nat). }
  intros image0.
  apply (always_bind _ (call (chat_completions_create _))); [done|].
  intros text. by apply set_status_worker_call.
Qed.



Lemma length_update (c : list Doc) (filter set : Doc) :
  length (Collection.update c filter set) = length c.
Proof.
  induction c as [|d c IH]; [done|]. cbn.
  destruct (Collection.matches filter d); cbn; by rewrite ?IH.
Qed.

Lemma find_update_other (v v' : bson) (set : Doc) (c : list Doc) :
  v ≠ v' → set !! "_id" = None →
  Collection.find (Collection.update c {["_id" := v]} set) {["_id" := v']}
  = Collection.find c {["_id" := v']}.
Proof.
  intros Hne Hs. induction c as [|d c IH]; [done|]. cbn.
  destruct (Collection.matches {["_id" := v]} d) eqn:Hm; cbn.
  - rewrite matches_set by done.
    rewrite !matches_id in *. apply bool_decide_eq_true in Hm.
    rewrite Hm. by rewrite bool_decide_eq_false_2 by congruence.
  - by rewrite IH.
Qed.

(** What a sequence of the worker's calls makes of a collection. *)
Lemma worker_calls_files (id : string) (o : N) (t : list op) (c : list Doc) :
  Forall (worker_call id o) t →
  length (foldl apply_call c t) = length c
  ∧ (∀ o', o' ≠ o →
       Collection.find (foldl apply_call c t) (by_id o')
       = Collection.find c (by_id o'))
  ∧ (Collection.find c (by_id o) = None → foldl apply_call c t = c).
Proof.
  intros Ht. revert c. induction Ht as [|call t Hcall _ IH]; intros c; [done|].
  cbn [foldl]. destruct (IH (apply_call c call)) as (Hlen & Hother & Hnone).
  destruct call; try done; cbn [apply_call] in *.
  destruct Hcall as [-> Hset]. split_and!.
  - by rewrite Hlen, length_update.
  - intros o' Hne. rewrite Hother by done. unfold by_id.
    apply find_update_other; [congruence | done].
  - intros Hc. unfold by_id in *. rewrite update_None in * by done. by apply Hnone.
Qed.

(** X8. The worker does not check that the job has a record: when no
    record has the identifier, every update of the run matches nothing,
    so the collection is left exactly as it was, and the queue too,
    however the run ends. *)
Theorem process_file_without_record
    (env : Env) (w : World) (id file_path : string) (o : N) :
  ObjectId id = Ok o →
  Collection.find (files_collection w) (by_id o) = None →
  files_collection (final (run env (process_file id file_path) w))
  = files_collection w
  ∧ queue (final (run env (process_file id file_path) w)) = queue w.
Proof.
  intros Hid Hnone.
  pose proof (run_always env _ _ w (process_file_worker_calls id file_path o Hid))
    as Ht.
  split.
  - rewrite files_replay. by apply (worker_calls_files id o).
  - rewrite queue_replay. rewrite <- (app_nil_r (queue w)) at 2. f_equal.
    induction Ht as [|call t Hcall _ IH]; [done|]. by destruct call.
Qed.

Lemma process_file_without_record_witness :
  Collection.find (files_collection uploaded_world) (by_id 5) = None
  ∧ files_collection
      (final (run quiet_env (process_file "000000000000000000000005" cv_path)
                uploaded_world))
    = files_collection uploaded_world.
Proof.
  split; [by vm_compute|].
  refine (proj1 (process_file_without_record quiet_env uploaded_world
                   "000000000000000000000005" cv_path 5 _ _)); by vm_compute.
Defined.

(** X9. A run of the worker, however it ends, leaves the record of every
    other job as it was, inserts and removes no record, and enqueues
    nothing. *)
Theorem process_file_other_records
    (env : Env) (w : World) (id file_path : string) (o' : N) :
  ObjectId id ≠ Ok o' →
  Collection.find (files_collection (final (run env (process_file id file_path) w)))
    (by_id o')
  = Collection.find (files_collection w) (by_id o')
  ∧ length (files_collection (final (run env (process_file id file_path) w)))
    = length (files_collection w)
  ∧ queue (final (run env (process_file id file_path) w)) = queue w.
Proof.
  intros Hne. destruct (ObjectId id) as [o|e] eqn:Hid.
  2: { by rewrite (process_file_invalid env w id file_path e Hid). }
  pose proof (run_always env _ _ w (process_file_worker_calls id file_path o Hid))
    as Ht.
  destruct (worker_calls_files id o _ (files_collection w) Ht) as (Hlen & Hother & _).
  rewrite files_replay. split_and!; [|done|].
  - apply Hother. congruence.
  - rewrite queue_replay. rewrite <- (app_nil_r (queue w)) at 2. f_equal.
    clear Hlen Hother. induction Ht as [|call t Hcall _ IH]; [done|]. by destruct call.
Qed.

Lemma process_file_other_records_witness :
  ObjectId "000000000000000000000005" ≠ Ok 0
  ∧ Collection.find
      (files_collection
         (final (run quiet_env (process_file "000000000000000000000005" cv_path)
                   uploaded_world))) (by_id 0)
    = Some cv_record.
Proof.
  assert (ObjectId "000000000000000000000005" ≠ Ok 0) as H by (by vm_compute).
  split; [done|].
  etrans; [exact (proj1 (process_file_other_records quiet_env uploaded_world
                           "000000000000000000000005" cv_path 0 H))|].
  by vm_compute.
Defined.

(** ** The worker: the files it writes *)

Lemma worker_call_writes (id : string) (o : N) (path : string) (c : op) :
  (∀ k, path ≠ image_save_path id k) → worker_call id o c → ¬ writes path c.
Proof.
  intros Hpath. destruct c; cbn; try tauto.
  intros [k ->] <-. by apply (Hpath k).
Qed.


Lemma app_inj_length (s1 s2 t1 t2 : string) :
  String.length s1 = String.length s2 → s1 +:+ t1 = s2 +:+ t2 → s1 = s2.
Proof.
  revert s2. induction s1 as [|a s1 IH]; intros [|b s2] Hlen H; try done.
  cbn in Hlen, H. injection H as -> H. f_equal. apply IH; [lia | done].
Qed.

Lemma image_save_path_job (id id' : string) (k k' : nat) :
  String.length id = String.length id' →
  image_save_path id k = image_save_path id' k' → id = id'.
Proof.
  unfold image_save_path. intros Hlen H.
  apply String.app_inj in H. by eapply app_inj_length.
Qed.



(** X11. Two jobs whose identifiers have the same length and differ do not
    share a page image path, so a run of the worker on one leaves every
    page image of the other as it was. *)
Theorem process_file_other_job_images
    (env : Env) (w : World) (id id' file_path : string) (k : nat) :
  String.length id = String.length id' →
  id ≠ id' →
  disk (final (run env (process_file id file_path) w)) !! image_save_path id' k
  = disk w !! image_save_path id' k.
Proof.
  intros Hlen Hne. destruct (ObjectId id) as [o|e] eqn:Hid.
  2: { by rewrite (process_file_invalid env w id file_path e Hid). }
  apply disk_untouched.
  eapply Forall_impl;
    [exact (run_always env _ _ w (process_file_worker_calls id file_path o Hid))|].
  intros c. apply worker_call_writes. intros k' H.
  apply Hne. symmetry. by eapply image_save_path_job.
Qed.

Lemma process_file_other_job_images_witness :
  String.length cv_id = String.length "000000000000000000000005"
  ∧ disk (final (run quiet_env (process_file cv_id cv_path) uploaded_world))
      !! image_save_path "000000000000000000000005" 0
    = None.
Proof.
  split; [reflexivity|].
  etrans; [refine (process_file_other_job_images quiet_env uploaded_world cv_id
                     "000000000000000000000005" cv_path 0 eq_refl _)|].
  - by vm_compute.
  - by vm_compute.
Defined.

(** After the pages are saved the worker writes no file any more. *)
Lemma after_save_no_write (id : string) (images : list string) (path : string) :
  always (λ c, ¬ writes path c)
    (_ ← set_status id {["status" := BStr "Converting to images success"]};
     image_base64 ← encode_images images;
     image0 ← index image_base64 0;
     result ← call (chat_completions_create (roast_request image0));
     set_status id {["status" := BStr "Processed"; "result" := BStr result]}).
Proof.
  assert (∀ set, always (λ c, ¬ writes path c) (set_status id set)) as Hset.
  { intros set. unfold set_status. destruct (ObjectId id); [|done]. cbn. tauto. }
  apply always_bind; [apply Hset|]. intros _.
  apply always_bind.
  { induction images as [|img images IH]; [done|].
    cbn. split; [tauto|]. intros bytes. apply always_bind; [apply IH | done]. }
  intros image_base64. apply always_bind.
  { unfold index. by destruct (image_base64 !! 0%nat). }
  intros image0.
  apply (always_bind _ (call (chat_completions_create _))); [by split; [tauto|]|].
  intros text. apply Hset.
Qed.

(** X12. When every page of the document is saved, the run of the worker
    leaves one image per page on disk, page k at the job's image path k
    with the JPEG bytes it was saved as; this holds whether or not the
    later steps, the remote call among them, succeed. *)
Theorem process_file_pages_on_disk
    (env : Env) (w : World) (id file_path : string) (o : N)
    (bytes : list byte) (pages : list Page) (bs : list (list byte)) :
  ObjectId id = Ok o →
  disk w !! file_path = Some bytes →
  pdf2image env bytes = Ok pages →
  (∀ k, makedirs_fault env (Posixpath.dirname (image_save_path id k)) = None) →
  Forall2 (λ p j, jpeg env p = Ok j) pages bs →
  ∀ k b, bs !! k = Some b →
    disk (final (run env (process_file id file_path) w)) !! image_save_path id k
    = Some b.
Proof.
  intros Hid Hdisk Hpdf Hmk Hjpeg k b Hk.
  unfold process_file.
  rewrite run_bind, (run_set_status env id o) by done. cbn [result final trace].
  rewrite run_bind, (run_set_status env id o) by done. cbn [result final trace].
  rewrite run_bind, (run_call env (convert_from_path file_path)).
  cbn [exec answer with_files disk]. rewrite Hdisk, Hpdf.
  cbn [fst snd result final trace].
  set (w2 := with_files _ (with_files _ w)).
  rewrite run_bind.
  destruct (run_save_pages env id Hmk pages bs 0 w2 Hjpeg) as (Hres & Hnew & _).
  rewrite Hres. cbn [result final trace].
  rewrite disk_untouched.
  - by apply (Hnew k b).
  - apply run_always, after_save_no_write.
Qed.

Lemma process_file_pages_on_disk_witness :
  pdf2image remote_down_env (read cv) = Ok [["p"; "1"]; ["p"; "2"]; ["p"; "3"]]%byte
  ∧ disk (final (run remote_down_env (process_file cv_id cv_path) uploaded_world))
      !! image_save_path cv_id 2
    = Some ["p"; "3"]%byte.
Proof.
  split; [reflexivity|].
  refine (process_file_pages_on_disk remote_down_env uploaded_world cv_id cv_path 0
            (read cv) [["p"; "1"]; ["p"; "2"]; ["p"; "3"]]%byte
            [["p"; "1"]; ["p"; "2"]; ["p"; "3"]]%byte
            eq_refl eq_refl eq_refl (λ _, eq_refl) _ 2%nat _ eq_refl).
  repeat constructor.
Defined.

(** ** An upload, then its task, then the lookup *)

(** The world a successful upload leaves, in a collection of records
    identified by [ObjectId]s. *)
Lemma upload_file_world (env : Env) (w : World) (file : UploadFile) (response : Doc) :
  Forall has_oid (files_collection w) →
  result (run env (upload_file file) w) = Ok response →
  response = {["file_id" := BStr (str_oid (Collection.next_oid (files_collection w)))]}
  ∧ final (run env (upload_file file) w)
    = {| files_collection :=
           files_collection w
           ++ [{["_id" := BOid (Collection.next_oid (files_collection w));
                 "name" := BStr (filename file); "status" := BStr "saving"]}];
         disk :=
           <[upload_path (str_oid (Collection.next_oid (files_collection w))) file
             := read file]> (disk w);
         queue :=
           queue w
           ++ [(str_oid (Collection.next_oid (files_collection w)),
                upload_path (str_oid (Collection.next_oid (files_collection w))) file)] |}
  ∧ Collection.find
      (files_collection w
       ++ [{["_id" := BOid (Collection.next_oid (files_collection w));
             "name" := BStr (filename file); "status" := BStr "saving"]}])
      (by_id (Collection.next_oid (files_collection w)))
    = Some {["_id" := BOid (Collection.next_oid (files_collection w));
             "name" := BStr (filename file); "status" := BStr "saving"]}.
Proof.
  intros Hoids Hok.
  set (o := Collection.next_oid (files_collection w)) in *.
  destruct (storage_fault env (upload_path (str_oid o) file)) as [e|] eqn:Hst.
  { revert Hok. unfold upload_file.
    rewrite (run_call_bind env (insert_one _)). cbn [exec answer].
    unfold Collection.insert.
    change (({["name" := BStr (filename file); "status" := BStr "saving"]} : Doc)
              !! "_id") with (@None bson).
    cbn [str]. fold o. fold (upload_path (str_oid o) file).
    rewrite (run_call_bind env (save_to_disk _ _)). cbn [exec answer].
    unfold save_to_disk_at. cbn [with_files disk]. by rewrite Hst. }
  rewrite (run_upload_file env w file Hst) in Hok |- *. fold o in Hok |- *.
  cbn [result final] in *. injection Hok as <-. split_and!.
  - done.
  - f_equal. apply update_str_filter. apply Forall_app. split; [done|].
    apply Forall_singleton. exists o. apply lookup_insert_eq.
  - unfold by_id. rewrite find_snoc.
    + cbn. rewrite matches_id, bool_decide_eq_true_2; [done|].
      apply lookup_insert_eq.
    + apply find_None. intros d' Hd' Hid.
      pose proof (next_oid_lt _ _ _ Hd' Hid). subst o. lia.
Qed.



(** X14. The worker rasterizes what was uploaded, and a rasterizer fault
    leaves the job where the spec's sequence stops: after a successful
    upload, if the rasterizer fails on the uploaded bytes, the run of the
    worker on the enqueued task ends in that fault, and the status lookup
    for the job then answers status "Converting to images" with a null
    result. *)
Theorem upload_then_rasterizer_fault
    (env env' env'' : Env) (w : World) (file : UploadFile) (response : Doc)
    (id file_path : string) (e : exn) :
  Forall has_oid (files_collection w) →
  Collection.next_oid (files_collection w) < 2 ^ 96 →
  result (run env (upload_file file) w) = Ok response →
  last (queue (final (run env (upload_file file) w))) = Some (id, file_path) →
  pdf2image env' (read file) = Raise e →
  result (run env' (process_file id file_path) (final (run env (upload_file file) w)))
  = Raise e
  ∧ result (run env'' (get_file_by_id id)
              (final (run env' (process_file id file_path)
                        (final (run env (upload_file file) w)))))
    = Ok {["_id" := BStr id; "name" := BStr (filename file);
           "status" := BStr "Converting to images"; "result" := BNull]}.
Proof.
  intros Hoids Hlt Hup Hlast Hpdf.
  destruct (upload_file_world env w file response Hoids Hup) as (-> & Hw1 & Hfind).
  set (o := Collection.next_oid (files_collection w)) in *.
  rewrite Hw1 in Hlast |- *. cbn [queue] in Hlast.
  rewrite last_snoc in Hlast. injection Hlast as <- <-.
  pose proof (ObjectId_str_oid o Hlt) as Hid.
  set (d := {["_id" := BOid o; "name" := BStr (filename file);
              "status" := BStr "saving"]} : Doc) in *.
  set (w1 := {| files_collection := _; disk := _; queue := _ |}) in *.
  assert (run env' (process_file (str_oid o) (upload_path (str_oid o) file)) w1
    = {| result := Raise e;
         final := with_files
           (Collection.update
              (Collection.update (files_collection w1) (by_id o)
                 {["status" := BStr "processing"]})
              (by_id o) {["status" := BStr "Converting to images"]}) w1;
         trace :=
           [update_one (by_id o) {["status" := BStr "processing"]};
            update_one (by_id o) {["status" := BStr "Converting to images"]};
            convert_from_path (upload_path (str_oid o) file)] |}) as ->.
  { unfold process_file.
    rewrite run_bind, (run_set_status env' _ o) by done. cbn [result final trace].
    rewrite run_bind, (run_set_status env' _ o) by done. cbn [result final trace].
    rewrite run_bind, (run_call env' (convert_from_path _)).
    cbn [exec answer with_files disk]. subst w1. cbn [disk].
    rewrite lookup_insert_eq, Hpdf. done. }
  cbn [result final]. split; [done|].
  rewrite (run_get_file_by_id env'' _ (str_oid o) o
             (<["status" := BStr "Converting to images"]> d)
             (BStr (filename file)) (BStr "Converting to images"));
    [done | done | | done..].
  cbn [with_files files_collection].
  by destruct (find_marked (files_collection w1) o d (BStr "processing")
    (BStr "Converting to images") (BStr "Converting to images success") Hfind)
    as [_ ->].
Qed.

Lemma upload_then_rasterizer_fault_witness :
  pdf2image not_pdf_env (read cv) = Raise (ExternalError "not a PDF")
  ∧ result (run not_pdf_env (process_file cv_id cv_path)
              (final (run quiet_env (upload_file cv) empty_world)))
    = Raise (ExternalError "not a PDF").
Proof.
  split; [reflexivity|].
  refine (proj1 (upload_then_rasterizer_fault quiet_env not_pdf_env quiet_env
                   empty_world cv {["file_id" := BStr cv_id]} cv_id cv_path
                   (ExternalError "not a PDF") _ _ _ _ eq_refl)).
  - constructor.
  - by vm_compute.
  - by vm_compute.
  - by vm_compute.
Defined.

(** ** Every record the system keeps is a file job *)

Lemma status_name_in (s : string) :
  BStr s ∈ status_names →
  ∀ v, ({["status" := BStr s]} : Doc) !! "status" = Some v → v ∈ status_names.
Proof. intros Hs v. rewrite lookup_singleton_eq. by intros [= <-]. Qed.

Lemma set_status_tidy (id : string) (set : Doc) :
  set !! "_id" = None →
  (∀ v, set !! "status" = Some v → v ∈ status_names) →
  always tidy_call (set_status id set).
Proof. intros ? ?. unfold set_status. destruct (ObjectId id); [|done]. by cbn. Qed.

Lemma passive_tidy (c : op) : passive c = true → tidy_call c.
Proof. by destruct c. Qed.

Lemma upload_file_tidy (file : UploadFile) : always tidy_call (upload_file file).
Proof.
  cbn. split_and!; [done | by eexists | done |].
  intros i. split; [done|]. intros _. split; [done|]. intros _.
  split_and!; [done | | done].
  apply status_name_in. unfold status_names. set_solver.
Qed.

Lemma process_file_tidy (id file_path : string) :
  always tidy_call (process_file id file_path).
Proof.
  assert (∀ s, BStr s ∈ status_names →
               always tidy_call (set_status id {["status" := BStr s]})) as Hmark.
  { intros s Hs. apply set_status_tidy; [done | by apply status_name_in]. }
  unfold process_file.
  apply always_bind; [apply Hmark; unfold status_names; set_solver|]. intros _.
  apply always_bind; [apply Hmark; unfold status_names; set_solver|]. intros _.
  apply (always_bind _ (call (convert_from_path file_path))); [done|].
  intros pages. apply always_bind.
  { eapply always_impl; [apply passive_tidy|].
    apply only_always, save_pages_passive. }
  intros images.
  apply always_bind; [apply Hmark; unfold status_names; set_solver|]. intros _.
  apply always_bind.
  { eapply always_impl; [apply passive_tidy|].
    apply only_always, encode_images_passive. }
  intros image_base64. apply always_bind.
  { unfold index. by destruct (image_base64 !! 0%nat). }
  intros image0.
  apply (always_bind _ (call (chat_completions_create _))); [done|].
  intros text. apply set_status_tidy; [done|].
  intros v. rewrite lookup_insert_eq. intros [= <-].
  unfold status_names. set_solver.
Qed.

Lemma ids_update (c : list Doc) (filter set : Doc) :
  set !! "_id" = None → ids (Collection.update c filter set) = ids c.
Proof.
  intros Hs. unfold ids. induction c as [|d c IH]; [done|]. cbn.
  destruct (Collection.matches filter d); cbn.
  - by rewrite lookup_union_r.
  - by rewrite IH.
Qed.

Lemma file_job_update (set d : Doc) :
  set !! "_id" = None →
  (∀ v, set !! "status" = Some v → v ∈ status_names) →
  file_job d → file_job (set ∪ d).
Proof.
  intros Hid Hst ([o Ho] & [name Hname] & (v & Hv & Hin)). split_and!.
  - exists o. by rewrite lookup_union_r.
  - destruct (set !! "name") as [name'|] eqn:Hn.
    + exists name'. by apply lookup_union_Some_l.
    + exists name. by rewrite lookup_union_r.
  - destruct (set !! "status") as [v'|] eqn:Hs.
    + exists v'. split; [by apply lookup_union_Some_l | by apply Hst].
    + exists v. by rewrite lookup_union_r.
Qed.

(** One disciplined call keeps the records file jobs with distinct
    identifiers. *)
Lemma apply_call_tidy (c : list Doc) (call : op) :
  tidy_call call →
  Forall file_job c → NoDup (ids c) →
  Forall file_job (apply_call c call) ∧ NoDup (ids (apply_call c call)).
Proof.
  intros Hcall Hc Hnd. destruct call; try done; cbn [apply_call].
  - destruct Hcall as (Hid & Hname & Hstatus). unfold Collection.insert.
    rewrite Hid. cbn [snd]. split.
    + apply Forall_app. split; [done|]. apply Forall_singleton. split_and!.
      * eexists. apply lookup_insert_eq.
      * by rewrite lookup_insert_ne.
      * exists (BStr "saving"). split; [by rewrite lookup_insert_ne|].
        unfold status_names. set_solver.
    + unfold ids. rewrite fmap_app. apply NoDup_app. split_and!; [done | |].
      * intros x Hx Hx'. apply list_elem_of_singleton in Hx'. subst x.
        apply list_elem_of_fmap in Hx as (d & Hd & Hin).
        rewrite lookup_insert_eq in Hd. symmetry in Hd.
        pose proof (next_oid_lt _ _ _ Hin Hd). lia.
      * apply NoDup_singleton.
  - destruct Hcall as [Hid Hst]. split; [|by rewrite ids_update].
    apply Forall_forall. intros d' Hd'. rewrite Forall_forall in Hc.
    apply elem_of_update in Hd' as [?|(d & Hd & _ & ->)]; [by apply Hc|].
    apply file_job_update; [done.. | by apply Hc].
Qed.

Lemma advance_tidy {A : Type} (env : Env) (p p' : Prog A) (w w' : World) :
  always tidy_call p →
  advance env p w = Some (p', w') →
  always tidy_call p'
  ∧ files_collection w' = apply_call (files_collection w) (match p with
                                                           | Call c _ => c
                                                           | _ => makedirs ""
                                                           end)
  ∧ tidy_call (match p with Call c _ => c | _ => makedirs "" end).
Proof.
  destruct p as [a|e|c k]; [done..|]. intros [Hc Hk]. cbn [advance].
  pose proof (exec_files env c w) as Hf.
  destruct (exec env c w) as [[x|e] w'']; intros [= <- <-]; cbn in Hf;
    (split_and!; [|done..]); [apply Hk | done].
Qed.

Lemma act_tidy (a : action) (s s' : System) :
  act a s = Some s' → tidy s → tidy s'.
Proof.
  intros Hact (Ht & Hc & Hnd). destruct a as [file| |env i]; cbn in Hact.
  - injection Hact as <-. split_and!; cbn; [|done..].
    apply Forall_app. split; [done|]. apply Forall_singleton, upload_file_tidy.
  - destruct (queue (world s)) as [|[id file_path] q]; [done|].
    injection Hact as <-. split_and!; cbn; [|done..].
    apply Forall_app. split; [done|]. apply Forall_singleton, process_file_tidy.
  - destruct (threads s !! i) as [t|] eqn:Hi; [|done]. cbn in Hact.
    destruct (thread_call env t (world s)) as [[t' w']|] eqn:Hcall; [|done].
    cbn in Hact. injection Hact as <-. cbn.
    rewrite Forall_lookup in Ht. pose proof (Ht i t Hi) as Hti.
    assert (thread_tidy t'
            ∧ ∃ c, tidy_call c
                   ∧ files_collection w' = apply_call (files_collection (world s)) c)
      as (Ht' & c & Hcc & Hf).
    { destruct t as [p|p]; cbn in Hcall, Hti;
        destruct (advance env p (world s)) as [[p' w'']|] eqn:Hadv; try done;
        cbn in Hcall; injection Hcall as <- <-;
        destruct (advance_tidy env p p' (world s) w'' Hti Hadv) as (? & ? & ?);
        (split; [done | by eexists]). }
    destruct (apply_call_tidy _ c Hcc Hc Hnd) as [Hc' Hnd'].
    unfold tidy. cbn [world threads]. rewrite Hf. split_and!; [|done..].
    apply Forall_insert; [by apply Forall_lookup | done].
Qed.

Lemma reachable_tidy (s : System) : reachable s → tidy s.
Proof.
  revert s. apply rtc_ind_r.
  - split_and!; cbn; constructor.
  - intros s s' _ [a Hact] IH. by eapply act_tidy.
Qed.

Lemma cv_processed_reachable : reachable cv_processed_system.
Proof.
  apply (play_reachable cv_schedule initial); [apply rtc_refl|].
  vm_compute. reflexivity.
Qed.

(** X15. In every state the system can reach, every record is identified
    by an [ObjectId], has a name, and has a status that is one of the six
    names the source uses; and no two records have the same identifier,
    however the uploads and the workers interleave. *)
Theorem reachable_records_are_file_jobs (s : System) :
  reachable s →
  (∀ d, d ∈ files_collection (world s) →
     (∃ o, d !! "_id" = Some (BOid o))
     ∧ is_Some (d !! "name")
     ∧ ∃ v, d !! "status" = Some v ∧ v ∈ status_names)
  ∧ (∀ i j d d',
       files_collection (world s) !! i = Some d →
       files_collection (world s) !! j = Some d' →
       d !! "_id" = d' !! "_id" → i = j).
Proof.
  intros (_ & Hjobs & Hnd)%reachable_tidy. split.
  - intros d Hd. rewrite Forall_forall in Hjobs. by apply Hjobs.
  - intros i j d d' Hi Hj Heq.
    apply (proj1 (NoDup_alt _) Hnd i j (d !! "_id")); unfold ids;
      rewrite list_lookup_fmap.
    + by rewrite Hi.
    + by rewrite Hj, Heq.
Qed.

Lemma reachable_records_are_file_jobs_witness :
  reachable cv_processed_system
  ∧ (∃ o, cv_processed !! "_id" = Some (BOid o))
  ∧ is_Some (cv_processed !! "name")
  ∧ ∃ v, cv_processed !! "status" = Some v ∧ v ∈ status_names.
Proof.
  split; [exact cv_processed_reachable|].
  apply (proj1 (reachable_records_are_file_jobs cv_processed_system
                  cv_processed_reachable)).
  assert (files_collection (world cv_processed_system) = [cv_processed]) as ->
    by (vm_compute; reflexivity).
  left.
Defined.

(** X16. In every state the system can reach, the status lookup never
    meets a missing field: for any identifier it raises [InvalidId] (the
    identifier is malformed) or [TypeError] (no record), or it answers the
    four fields of the record, with a status that is one of the six
    names. *)
Theorem reachable_status_lookup_outcomes (s : System) (env : Env) (id : string) :
  reachable s →
  result (run env (get_file_by_id id) (world s)) = Raise (InvalidId id)
  ∨ result (run env (get_file_by_id id) (world s)) = Raise TypeError
  ∨ ∃ (o : N) (name status outcome : bson),
      ObjectId id = Ok o
      ∧ status ∈ status_names
      ∧ result (run env (get_file_by_id id) (world s))
        = Ok {["_id" := BStr (str_oid o); "name" := name; "status" := status;
               "result" := outcome]}.
Proof.
  intros (_ & Hjobs & _)%reachable_tidy.
  destruct (ObjectId id) as [o|e] eqn:Hid.
  2: { left. pose proof (ObjectId_Raise _ _ Hid) as ->.
       unfold get_file_by_id. by rewrite Hid. }
  destruct (Collection.find (files_collection (world s)) (by_id o)) as [d|] eqn:Hd.
  - right; right. destruct (find_Some _ _ _ Hd) as [Hin _].
    rewrite Forall_forall in Hjobs.
    destruct (Hjobs d Hin) as (_ & [name Hname] & (status & Hstatus & Hnames)).
    exists o, name, status, (default BNull (d !! "result")).
    split_and!; [done..|].
    by rewrite (run_get_file_by_id env (world s) id o d name status).
  - right; left. unfold get_file_by_id. rewrite Hid. cbn [lift].
    change (Ret o ≫= ?f) with (f o). cbv beta.
    rewrite (run_call_bind env (find_one _)). cbn [exec answer].
    fold (by_id o). by rewrite Hd.
Qed.

Lemma reachable_status_lookup_outcomes_witness :
  reachable cv_processed_system
  ∧ (result (run quiet_env (get_file_by_id cv_id) (world cv_processed_system))
     = Raise (InvalidId cv_id)
     ∨ result (run quiet_env (get_file_by_id cv_id) (world cv_processed_system))
       = Raise TypeError
     ∨ ∃ (o : N) (name status outcome : bson),
         ObjectId cv_id = Ok o
         ∧ status ∈ status_names
         ∧ result (run quiet_env (get_file_by_id cv_id) (world cv_processed_system))
           = Ok {["_id" := BStr (str_oid o); "name" := name; "status" := status;
                  "result" := outcome]}).
Proof.
  split; [exact cv_processed_reachable|].
  exact (reachable_status_lookup_outcomes cv_processed_system quiet_env cv_id
           cv_processed_reachable).
Defined.

(** ** The jobs waiting in the queue *)

Lemma parse_str_oid (o : N) : Hex.parse 0 (str_oid o) = Some o.
Proof.
  unfold str_oid. rewrite parse_digits. f_equal.
  set (k := Nat.max 24 (N.to_nat ((N.size o + 3) / 4))).
  rewrite N.mod_small; [lia|].
  assert (N.size o ≤ 4 * N.of_nat k) as Hk.
  { pose proof (N.Div0.div_mod (N.size o + 3) 4) as Hdm.
    pose proof (N.mod_lt (N.size o + 3) 4). subst k. lia. }
  change 16 with (2 ^ 4). rewrite <- N.pow_mul_r.
  eapply N.lt_le_trans; [apply N.size_gt|].
  apply N.pow_le_mono_r; [lia | done].
Qed.

Lemma str_oid_inj : Inj (=) (=) str_oid.
Proof.
  intros o o' H. pose proof (parse_str_oid o) as Ho.
  rewrite H, parse_str_oid in Ho. congruence.
Qed.

(** X17. In every state the system can reach, the tasks on the queue are
    for distinct identifiers, and a job that waits on the queue has not
    been processed: a record with its identifier has no result. *)
Theorem reachable_queue_jobs (s : System) :
  reachable s →
  NoDup (queue (world s)).*1
  ∧ ∀ id file_path o d,
      (id, file_path) ∈ queue (world s) →
      ObjectId id = Ok o →
      d ∈ files_collection (world s) →
      d !! "_id" = Some (BOid o) →
      d !! "result" = None.
Proof.
  intros (owns & tasks & HI)%reachable_invariant.
  destruct HI as [_ Hq _ _ _ Hnd _ Hheld]. rewrite Hq. split.
  - rewrite <- list_fmap_compose.
    rewrite (list_fmap_ext _ (str_oid ∘ fst) tasks) by (by intros ? []).
    rewrite list_fmap_compose. apply NoDup_fmap_2; [apply str_oid_inj | done].
  - intros id file_path o d Hin Hid Hd Hoid.
    apply list_elem_of_fmap in Hin as ([o' path] & [= -> ->] & Hin).
    apply ObjectId_str_oid_inv in Hid as ->.
    destruct (Hheld o') as [_ Hnone]; [|by eapply Hnone].
    right. apply list_elem_of_fmap. by exists (o', path).
Qed.

Lemma reachable_queue_jobs_witness :
  reachable {| world := uploaded_world;
               threads := [Upload (Ret {["file_id" := BStr cv_id]})] |}
  ∧ NoDup (queue uploaded_world).*1.
Proof.
  assert (reachable {| world := uploaded_world;
                       threads := [Upload (Ret {["file_id" := BStr cv_id]})] |})
    as Hreach.
  { apply (play_reachable (Request cv :: replicate 4 (Next quiet_env 0)) initial);
      [apply rtc_refl|]. vm_compute. reflexivity. }
  split; [done|].
  exact (proj1 (reachable_queue_jobs _ Hreach)).
Defined.

(** ** The remote call of the worker *)

Lemma process_file_roast_calls (id file_path : string) :
  always roast_call (process_file id file_path).
Proof.
  assert (∀ set, always roast_call (set_status id set)) as Hset.
  { intros set. unfold set_status. by destruct (ObjectId id). }
  assert (∀ B (p : Prog B), only passive p → always roast_call p) as Hpassive.
  { intros B p Hp. eapply always_impl; [|by apply only_always].
    intros c. by destruct c. }
  unfold process_file.
  apply always_bind; [apply Hset|]. intros _.
  apply always_bind; [apply Hset|]. intros _.
  apply (always_bind _ (call (convert_from_path file_path))); [done|].
  intros pages. apply always_bind; [apply Hpassive, save_pages_passive|].
  intros images. apply always_bind; [apply Hset|]. intros _.
  apply always_bind; [apply Hpassive, encode_images_passive|].
  intros image_base64. apply always_bind.
  { unfold index. by destruct (image_base64 !! 0%nat). }
  intros image0.
  apply (always_bind _ (call (chat_completions_create _))); [|intros; apply Hset].
  split; [by exists image0 | done].
Qed.

(** X18. Whatever the identifier, the document and the collaborators do, a
    run of the worker calls the remote model at most once, and a request
    it sends is the fixed prompt with exactly one image, a JPEG data URL. *)
Theorem process_file_at_most_one_request
    (env : Env) (w : World) (id file_path : string) :
  chat_requests (trace (run env (process_file id file_path) w)) = []
  ∨ ∃ image,
      chat_requests (trace (run env (process_file id file_path) w))
      = [{| model := "gemini-2.0-flash";
            messages :=
              [{| role := "user";
                  content :=
                    [text_part "Based on the resume below, Roast this resume.";
                     image_url_part ("data:image/jpeg;base64," +:+ image)] |}] |}].
Proof.
  pose proof (run_always env _ _ w (process_file_roast_calls id file_path)) as Hroast.
  destruct (ObjectId id) as [o|e] eqn:Hid.
  2: { left. by rewrite (process_file_invalid env w id file_path e Hid). }
  destruct (process_file_run env w id file_path o Hid)
    as (t1 & Ht1 & [(e & _ & Ht & _) | (t2 & Ht2 & H)]).
  - left. rewrite Ht, chat_requests_app, (chat_requests_passive t1 Ht1). done.
  - destruct H as [(e & _ & Ht & _) | H].
    { left. rewrite Ht, !chat_requests_app, (chat_requests_passive t1 Ht1),
        (chat_requests_passive t2 Ht2). done. }
    assert (∃ request t3,
              trace (run env (process_file id file_path) w)
              = [update_one (by_id o) {["status" := BStr "processing"]};
                 update_one (by_id o) {["status" := BStr "Converting to images"]}]
                ++ t1
                ++ [update_one (by_id o)
                      {["status" := BStr "Converting to images success"]}]
                ++ t2 ++ chat_completions_create request :: t3
              ∧ chat_requests t3 = []) as (request & t3 & Ht & Ht3).
    { destruct H as [(e & q & _ & _ & Ht & _) | (q & text & _ & _ & Ht & _)].
      - by exists q, [].
      - by eexists q, [_]. }
    right. rewrite Ht in Hroast |- *.
    rewrite !Forall_app in Hroast.
    destruct Hroast as (_ & _ & _ & _ & Hreq).
    apply Forall_cons in Hreq as [[image ->] _].
    exists image.
    rewrite !chat_requests_app, (chat_requests_passive t1 Ht1),
      (chat_requests_passive t2 Ht2).
    cbn [app]. change (chat_requests (chat_completions_create ?q :: t3))
      with (q :: chat_requests t3). by rewrite Ht3.
Qed.
